(** * YouTube Watch Tracker: the watch detector and the aggregation store

    A shallow embedding of the two scripts that [src/python.py] writes into
    the extension package:

    - [src/background/serviceWorker.js], the store: an IndexedDB object
      store [videos] keyed by [videoId], driven by runtime messages;
    - [src/content/contentScript.js], the detector: the [ended] and
      [timeupdate] listeners, the session set and the navigation observer.

    Conventions of the embedding.
    - A JavaScript string is a [string]: the bytes of its UTF-8 encoding.
    - An optional string property is an [option string]; [None] stands for
      [undefined] (and for [null]).
    - [watchCount] is a [Z]: the counts stay in the range where the
      arithmetic of JavaScript numbers is exact.
    - Media times are JavaScript numbers: IEEE 754 binary64 values, with
      the correctly rounded division and multiplication of [SpecFloat].
    - What a handler reads from its surroundings (clock, [document], the
      storage engine succeeding or failing, the page) is an explicit
      argument.
    - A run of the message listener makes one or two storage calls, each a
      transaction of its own.  [ServiceWorker.onMessage] is a run whose
      calls follow each other with no other run's call in between;
      [Handlers] has the runs call by call, in any order. *)

From Stdlib Require Import ZArith QArith String Ascii List.
From Stdlib Require Floats.SpecFloat.
From Stdlib Require Import Decimal DecimalFacts DecimalPos DecimalN DecimalString.
From stdpp Require Import gmap strings list fin_maps sorting.

Local Open Scope string_scope.
Local Open Scope Z_scope.
Local Open Scope list_scope.

(** ** Settled promises

    [await p] either yields the value [p] resolved with, or rethrows: the
    rest of the [async] function is skipped and its own promise rejects. *)

Inductive promise (A : Type) : Type :=
| Resolved (a : A)
| Rejected.
Arguments Resolved {A} a.
Arguments Rejected {A}.

(** ** JSON text

    [JSON.stringify] and [JSON.parse] are built into the language; they are
    modelled after ECMA-262 for the values the store exports: [null],
    booleans, integers, strings, arrays and objects. *)

Module JSON.

#[local] Unset Elimination Schemes.
Inductive value : Type :=
| Null
| Bool (b : bool)
| Number (n : Z)
| Str (s : string)
| Array (items : list value)
| Object (props : list (string * value)).
#[local] Set Elimination Schemes.

Definition dquote : ascii := "034"%char.
Definition backslash : ascii := "\"%char.

Definition hex_digit (n : N) : ascii :=
  if (n <? 10)%N then ascii_of_N (48 + n) else ascii_of_N (87 + n).

(** QuoteJSONString, one code unit. *)
Definition quote_char (c : ascii) : string :=
  if Ascii.eqb c dquote then String backslash (String dquote "")
  else if Ascii.eqb c backslash then String backslash (String backslash "")
  else if Ascii.eqb c "008" then "\b"
  else if Ascii.eqb c "012" then "\f"
  else if Ascii.eqb c "010" then "\n"
  else if Ascii.eqb c "013" then "\r"
  else if Ascii.eqb c "009" then "\t"
  else if (N_of_ascii c <? 32)%N then
    "\u00" +:+ String (hex_digit (N_of_ascii c / 16))
                      (String (hex_digit (N_of_ascii c mod 16)) "")
  else String c "".

Fixpoint quote_chars (s : string) : string :=
  match s with
  | "" => ""
  | String c s' => quote_char c +:+ quote_chars s'
  end.

Definition quote (s : string) : string :=
  String dquote (quote_chars s +:+ String dquote "").

Definition number_to_string (n : Z) : string :=
  NilZero.string_of_int (Z.to_int n).

Fixpoint join (parts : list string) : string :=
  match parts with
  | [] => ""
  | [p] => p
  | p :: ps => p +:+ "," +:+ join ps
  end.

(** [JSON.stringify] without indentation. *)
Fixpoint stringify (v : value) : string :=
  match v with
  | Null => "null"
  | Bool true => "true"
  | Bool false => "false"
  | Number n => number_to_string n
  | Str s => quote s
  | Array items => "[" +:+ join (map stringify items) +:+ "]"
  | Object props =>
      "{" +:+ join (map (fun kv => quote (fst kv) +:+ ":" +:+ stringify (snd kv)) props) +:+ "}"
  end.

(** *** [JSON.parse]

    Numbers are integers here: a fraction or an exponent is refused.  An
    escape [\uXXXX] gives the UTF-8 bytes of its code point; a surrogate has
    none and is refused. *)

Definition is_ws (c : ascii) : bool :=
  Ascii.eqb c " " || Ascii.eqb c "009" || Ascii.eqb c "010" || Ascii.eqb c "013".

Fixpoint skip_ws (s : string) : string :=
  match s with
  | String c s' => if is_ws c then skip_ws s' else s
  | "" => ""
  end.

Definition is_digit (c : ascii) : bool :=
  (48 <=? N_of_ascii c)%N && (N_of_ascii c <=? 57)%N.

Fixpoint span_digits (s : string) : string * string :=
  match s with
  | String c s' =>
      if is_digit c then (String c (span_digits s').1, (span_digits s').2)
      else ("", s)
  | "" => ("", "")
  end.

(** The digits of an integer: no leading zero but in [0] itself. *)
Definition parse_digits (s : string) : option (N * string) :=
  let '(ds, rest) := span_digits s in
  match ds with
  | "" => None
  | String c ds' =>
      if Ascii.eqb c "0" && negb (String.eqb ds' "") then None
      else match NilEmpty.uint_of_string ds with
           | Some u => Some (N.of_uint u, rest)
           | None => None
           end
  end.

Definition starts_fraction (s : string) : bool :=
  match s with
  | String c _ => Ascii.eqb c "." || Ascii.eqb c "e" || Ascii.eqb c "E"
  | "" => false
  end.

Definition parse_number (s : string) : option (Z * string) :=
  let signed :=
    match s with
    | String c s' =>
        if Ascii.eqb c "-" then
          match parse_digits s' with
          | Some (n, rest) => Some (- Z.of_N n, rest)
          | None => None
          end
        else
          match parse_digits s with
          | Some (n, rest) => Some (Z.of_N n, rest)
          | None => None
          end
    | "" => None
    end in
  match signed with
  | Some (n, rest) => if starts_fraction rest then None else Some (n, rest)
  | None => None
  end.

Definition hex_value (c : ascii) : option N :=
  let n := N_of_ascii c in
  if (48 <=? n)%N && (n <=? 57)%N then Some (n - 48)%N
  else if (97 <=? n)%N && (n <=? 102)%N then Some (n - 87)%N
  else if (65 <=? n)%N && (n <=? 70)%N then Some (n - 55)%N
  else None.

Definition hex4 (a b c d : ascii) : option N :=
  match hex_value a, hex_value b, hex_value c, hex_value d with
  | Some x, Some y, Some z, Some w => Some (((x * 16 + y) * 16 + z) * 16 + w)%N
  | _, _, _, _ => None
  end.

Definition utf8 (cp : N) : option string :=
  if (cp <? 128)%N then Some (String (ascii_of_N cp) "")
  else if (cp <? 2048)%N then
    Some (String (ascii_of_N (192 + cp / 64))
            (String (ascii_of_N (128 + cp mod 64)) ""))
  else if (55296 <=? cp)%N && (cp <=? 57343)%N then None
  else
    Some (String (ascii_of_N (224 + cp / 4096))
            (String (ascii_of_N (128 + (cp / 64) mod 64))
               (String (ascii_of_N (128 + cp mod 64)) ""))).

Definition prepend (p : string) (r : option (string * string))
  : option (string * string) :=
  match r with
  | Some (s, rest) => Some (p +:+ s, rest)
  | None => None
  end.

(** The characters of a string after its opening quote, up to the closing
    one. *)
Fixpoint parse_chars (s : string) : option (string * string) :=
  match s with
  | "" => None
  | String c s' =>
      if Ascii.eqb c dquote then Some ("", s')
      else if Ascii.eqb c backslash then
        match s' with
        | "" => None
        | String x s'' =>
            if Ascii.eqb x dquote then prepend (String dquote "") (parse_chars s'')
            else if Ascii.eqb x backslash then prepend "\" (parse_chars s'')
            else if Ascii.eqb x "/" then prepend "/" (parse_chars s'')
            else if Ascii.eqb x "b" then prepend (String "008" "") (parse_chars s'')
            else if Ascii.eqb x "f" then prepend (String "012" "") (parse_chars s'')
            else if Ascii.eqb x "n" then prepend (String "010" "") (parse_chars s'')
            else if Ascii.eqb x "r" then prepend (String "013" "") (parse_chars s'')
            else if Ascii.eqb x "t" then prepend (String "009" "") (parse_chars s'')
            else if Ascii.eqb x "u" then
              match s'' with
              | String h1 (String h2 (String h3 (String h4 s3))) =>
                  match hex4 h1 h2 h3 h4 with
                  | Some cp =>
                      match utf8 cp with
                      | Some bytes => prepend bytes (parse_chars s3)
                      | None => None
                      end
                  | None => None
                  end
              | _ => None
              end
            else None
        end
      else if (N_of_ascii c <? 32)%N then None
      else prepend (String c "") (parse_chars s')
  end.

Fixpoint strip_prefix (p s : string) : option string :=
  match p, s with
  | "", _ => Some s
  | String a p', String b s' => if Ascii.eqb a b then strip_prefix p' s' else None
  | String _ _, "" => None
  end.

Definition parse_literal (s : string) : option (value * string) :=
  match strip_prefix "null" s with
  | Some r => Some (Null, r)
  | None =>
      match strip_prefix "true" s with
      | Some r => Some (Bool true, r)
      | None =>
          match strip_prefix "false" s with
          | Some r => Some (Bool false, r)
          | None => None
          end
      end
  end.

Fixpoint parse_value (fuel : nat) (s : string) {struct fuel}
  : option (value * string) :=
  match fuel with
  | O => None
  | S fuel =>
      match skip_ws s with
      | "" => None
      | String c r =>
          if Ascii.eqb c dquote then
            match parse_chars r with
            | Some (str, rest) => Some (Str str, rest)
            | None => None
            end
          else if Ascii.eqb c "[" then
            match skip_ws r with
            | String "]" rest => Some (Array [], rest)
            | _ =>
                match parse_elements fuel r with
                | Some (items, rest) => Some (Array items, rest)
                | None => None
                end
            end
          else if Ascii.eqb c "{" then
            match skip_ws r with
            | String "}" rest => Some (Object [], rest)
            | _ =>
                match parse_members fuel r with
                | Some (props, rest) => Some (Object props, rest)
                | None => None
                end
            end
          else if is_digit c || Ascii.eqb c "-" then
            match parse_number (String c r) with
            | Some (n, rest) => Some (Number n, rest)
            | None => None
            end
          else parse_literal (String c r)
      end
  end
with parse_elements (fuel : nat) (s : string) {struct fuel}
  : option (list value * string) :=
  match fuel with
  | O => None
  | S fuel =>
      match parse_value fuel s with
      | Some (v, r) =>
          match skip_ws r with
          | String c rest =>
              if Ascii.eqb c "," then
                match parse_elements fuel rest with
                | Some (vs, rest') => Some (v :: vs, rest')
                | None => None
                end
              else if Ascii.eqb c "]" then Some ([v], rest)
              else None
          | "" => None
          end
      | None => None
      end
  end
with parse_members (fuel : nat) (s : string) {struct fuel}
  : option (list (string * value) * string) :=
  match fuel with
  | O => None
  | S fuel =>
      match skip_ws s with
      | String q r =>
          if Ascii.eqb q dquote then
            match parse_chars r with
            | Some (k, r1) =>
                match skip_ws r1 with
                | String colon r2 =>
                    if Ascii.eqb colon ":" then
                      match parse_value fuel r2 with
                      | Some (v, r3) =>
                          match skip_ws r3 with
                          | String c rest =>
                              if Ascii.eqb c "," then
                                match parse_members fuel rest with
                                | Some (kvs, rest') => Some ((k, v) :: kvs, rest')
                                | None => None
                                end
                              else if Ascii.eqb c "}" then Some ([(k, v)], rest)
                              else None
                          | "" => None
                          end
                      | None => None
                      end
                    else None
                | "" => None
                end
            | None => None
            end
          else None
      | "" => None
      end
  end.

(** What may follow a number in a text: no digit, no fraction, no exponent. *)
Definition starts_digit (s : string) : bool :=
  match s with
  | String c _ => is_digit c
  | "" => false
  end.

Definition delimited (rest : string) : Prop :=
  starts_digit rest = false ∧ starts_fraction rest = false.

(** The characters a value's text can start with. *)
Definition starts_value (c : ascii) : bool :=
  is_digit c || Ascii.eqb c "-" || Ascii.eqb c dquote || Ascii.eqb c "["
  || Ascii.eqb c "{" || Ascii.eqb c "n" || Ascii.eqb c "t" || Ascii.eqb c "f".

(** The text of one property of an object. *)
Definition member (kv : string * value) : string :=
  quote kv.1 +:+ ":" +:+ stringify kv.2.

(** [JSON.parse]: one value, and nothing but white space after it. *)
Definition parse (s : string) : option value :=
  match parse_value (String.length s) s with
  | Some (v, rest) => if String.eqb (skip_ws rest) "" then Some v else None
  | None => None
  end.

(** Property access on a parsed object: of two properties with the same
    name the later one counts. *)
Fixpoint get (k : string) (props : list (string * value)) : option value :=
  match props with
  | [] => None
  | (k', v) :: rest =>
      match get k rest with
      | Some v' => Some v'
      | None => if String.eqb k k' then Some v else None
      end
  end.

End JSON.

(** ** The store: [src/background/serviceWorker.js] *)

(** A runtime message.  [videoId] is [None] when the sender passed [null]
    (the content script does so on a page without a [v] parameter). *)
Module Msg.
Record Meta : Type := { title : option string }.
Record t : Type := {
  type : option string;
  videoId : option string;
  meta : option Meta
}.
End Msg.

Module ServiceWorker.

(** The objects kept in the object store [videos]. *)
Record WatchRecord : Type := {
  videoId : option string;
  watchCount : Z;
  events : list string;
  title : option string;
  lastSeenAt : option string
}.

(** The object store, by key. *)
Abbreviation DB := (gmap string WatchRecord).

(** What the storage engine does to one [openDb] and the request that
    follows it. *)
Record StorageCall : Type := {
  open_rejects : bool;     (* [req.onerror] of [indexedDB.open] *)
  request_errors : bool    (* [onerror] of the get, put or cursor request *)
}.

(** What one run of the message listener reads from outside. *)
Record Env : Type := {
  now : string;                (* [(new Date()).toISOString()] *)
  document : option string;    (* [document.title]; [None] where the global
                                  [document] is not defined, as in a
                                  service worker *)
  first : StorageCall;         (* the first storage call of the run *)
  second : StorageCall         (* the second one ([putVideo]) *)
}.

Inductive response : Type :=
| RNull
| RRecord (data : WatchRecord)
| RWatch (success : bool) (watchCount : Z)
| RList (all : list WatchRecord)
| RJson (json : string).

(** What the sender of a message gets: the argument of [sendResponse], or
    nothing when the listener's [async] body rejected before calling it. *)
Inductive outcome : Type :=
| Responded (r : response)
| NoResponse.

(** An [async] function over the object store. *)
Definition Async (A : Type) : Type := DB -> promise A * DB.

Definition ret {A} (a : A) : Async A := fun db => (Resolved a, db).
Definition throw {A} : Async A := fun db => (Rejected, db).
Definition bind {A B} (m : Async A) (k : A -> Async B) : Async B :=
  fun db =>
    match m db with
    | (Resolved a, db') => k a db'
    | (Rejected, db') => (Rejected, db')
    end.

(** [x ← m; k] is [const x = await m; k], and [m;; k] is [await m; k]. *)
#[export] Instance Async_ret : MRet Async := @ret.
#[export] Instance Async_bind : MBind Async := fun A B k m => bind m k.

(** Truthiness of a string-or-undefined value and of a number. *)
Definition truthy (s : option string) : bool :=
  match s with
  | Some s => negb (String.eqb s "")
  | None => false
  end.

Definition num_or (a b : Z) : Z := if a =? 0 then b else a.

Definition openDb (c : StorageCall) : Async unit :=
  if open_rejects c then throw else ret tt.

(** [store.get] throws a DataError on a key that is not valid; inside the
    promise executor that rejects the promise.  [r.onerror] resolves with
    [null]. *)
Definition getVideo (c : StorageCall) (videoId : option string)
  : Async (option WatchRecord) :=
  openDb c;;
  match videoId with
  | None => throw
  | Some k =>
      if request_errors c then ret None
      else fun db => (Resolved (db !! k), db)
  end.

(** The key of [store.put(obj)] is read at the key path [videoId]. *)
Definition putVideo (c : StorageCall) (obj : WatchRecord) : Async unit :=
  openDb c;;
  match videoId obj with
  | None => throw
  | Some k =>
      if request_errors c then throw
      else fun db => (Resolved tt, <[k := obj]> db)
  end.

(** The UTF-16 code units of a string, read off the bytes of its UTF-8
    encoding: a character outside the basic plane is a pair of surrogates.
    A byte that starts no character of the encoding counts as a unit. *)
Fixpoint code_units (s : string) : list N :=
  match s with
  | EmptyString => []
  | String a s1 =>
      let b0 := N_of_ascii a in
      match s1 with
      | EmptyString => [b0]
      | String b s2 =>
          let b1 := N_of_ascii b in
          if (b0 <? 192)%N then b0 :: code_units s1
          else if (b0 <? 224)%N then
            ((b0 - 192) * 64 + (b1 - 128))%N :: code_units s2
          else
            match s2 with
            | EmptyString => b0 :: code_units s1
            | String c s3 =>
                let b2 := N_of_ascii c in
                if (b0 <? 240)%N then
                  ((b0 - 224) * 4096 + (b1 - 128) * 64 + (b2 - 128))%N
                    :: code_units s3
                else
                  match s3 with
                  | EmptyString => b0 :: code_units s1
                  | String d s4 =>
                      let b3 := N_of_ascii d in
                      let u := ((b0 - 240) * 262144 + (b1 - 128) * 4096
                                + (b2 - 128) * 64 + (b3 - 128) - 65536)%N in
                      (55296 + u / 1024)%N :: (56320 + u mod 1024)%N
                        :: code_units s4
                  end
            end
      end
  end.

Fixpoint units_le (a b : list N) : bool :=
  match a, b with
  | [], _ => true
  | _ :: _, [] => false
  | x :: a', y :: b' =>
      if (x <? y)%N then true
      else if (y <? x)%N then false
      else units_le a' b'
  end.

(** A cursor visits the records in the order of their keys, and string keys
    are ordered code unit by code unit. *)
Definition key_le (a b : string * WatchRecord) : Prop :=
  units_le (code_units a.1) (code_units b.1) = true.

#[export] Instance key_le_dec : RelDecision key_le.
Proof. intros a b. unfold key_le. apply _. Defined.

Definition cursor (db : DB) : list WatchRecord :=
  (merge_sort key_le (map_to_list db)).*2.

(** The cursor visits every record; [cursor.onerror] resolves with a new
    empty array. *)
Definition getAllVideos (c : StorageCall) : Async (list WatchRecord) :=
  openDb c;;
  if request_errors c then ret []
  else fun db => (Resolved (cursor db), db).

(** [msg.meta && msg.meta.title || existing.title || document.title];
    reading [document] where it is not defined throws a ReferenceError. *)
Definition new_title (e : Env) (m : Msg.t) (existing : WatchRecord)
  : Async (option string) :=
  let meta_title :=
    match Msg.meta m with
    | Some mt => Msg.title mt
    | None => None
    end in
  if truthy meta_title then ret meta_title
  else if truthy (title existing) then ret (title existing)
  else match document e with
       | Some t => ret (Some t)
       | None => throw
       end.

Definition prop (k : string) (v : option JSON.value) : list (string * JSON.value) :=
  match v with
  | Some v => [(k, v)]
  | None => []
  end.

(** The JSON value of a stored object: its properties in the order they
    were created; a property that is [undefined] is left out. *)
Definition toJSON (r : WatchRecord) : JSON.value :=
  JSON.Object
    (prop "videoId" (JSON.Str <$> videoId r)
     ++ [("watchCount", JSON.Number (watchCount r));
         ("events", JSON.Array (JSON.Str <$> events r))]
     ++ prop "title" (JSON.Str <$> title r)
     ++ prop "lastSeenAt" (JSON.Str <$> lastSeenAt r))%list.

Definition stringify_all (all : list WatchRecord) : string :=
  JSON.stringify (JSON.Array (toJSON <$> all)).

(** The [record_watch] branch of the listener.  A stored [watchCount] is a
    number, so [existing.watchCount || 0] is [num_or]; a stored [events] is
    an array, which is truthy, so [existing.events || []] is [events]
    itself. *)
Definition record_watch (e : Env) (m : Msg.t) : Async response :=
  found ← getVideo (first e) (Msg.videoId m);
  let existing :=
    match found with
    | Some r => r
    | None => {| videoId := Msg.videoId m; watchCount := 0; events := [];
                 title := None; lastSeenAt := None |}
    end in
  let watchCount' := num_or (watchCount existing) 0 + 1 in
  let events' := (events existing ++ [now e])%list in
  title' ← new_title e m existing;
  let lastSeenAt' := events' !! (length events' - 1)%nat in
  let existing' :=
    {| videoId := videoId existing; watchCount := watchCount';
       events := events'; title := title'; lastSeenAt := lastSeenAt' |} in
  putVideo (second e) existing';;
  ret (RWatch true watchCount').

Definition handle (e : Env) (msg : option Msg.t) : Async response :=
  match msg with
  | None => ret RNull
  | Some m =>
      if negb (truthy (Msg.type m)) then ret RNull
      else if bool_decide (Msg.type m = Some "get_video") then
        data ← getVideo (first e) (Msg.videoId m);
        ret (match data with Some r => RRecord r | None => RNull end)
      else if bool_decide (Msg.type m = Some "record_watch") then
        record_watch e m
      else if bool_decide (Msg.type m = Some "get_all_videos") then
        all ← getAllVideos (first e);
        ret (RList all)
      else if bool_decide (Msg.type m = Some "export_json") then
        all ← getAllVideos (first e);
        ret (RJson (stringify_all all))
      else ret RNull
  end.

(** The listener of [chrome.runtime.onMessage]. *)
Definition onMessage (e : Env) (msg : option Msg.t) (db : DB) : outcome * DB :=
  match handle e msg db with
  | (Resolved r, db') => (Responded r, db')
  | (Rejected, db') => (NoResponse, db')
  end.

(** A run of the listener over a sequence of messages. *)
Fixpoint run (inputs : list (Env * option Msg.t)) (db : DB) : list outcome * DB :=
  match inputs with
  | [] => ([], db)
  | (e, msg) :: rest =>
      let '(o, db') := onMessage e msg db in
      let '(os, db'') := run rest db' in
      (o :: os, db'')
  end.

End ServiceWorker.

(** ** The detector: [src/content/contentScript.js] *)

Module ContentScript.

(** A JavaScript number: a binary64 value.  [video.currentTime] and
    [video.duration] are such numbers; the duration is [NaN] while it is
    not known and [Infinity] for a live stream. *)
Definition number : Type := SpecFloat.spec_float.

Definition prec : Z := 53.
Definition emax : Z := 1024.

Definition NaN : number := SpecFloat.S754_nan.
Definition Infinity : number := SpecFloat.S754_infinity false.

(** The number an integer literal stands for. *)
Definition of_Z (z : Z) : number :=
  SpecFloat.binary_normalize prec emax z 0 false.

(** [x / y], [x * y], [x >= y] and [x < y] *)
Definition div (x y : number) : number := SpecFloat.SFdiv prec emax x y.
Definition mul (x y : number) : number := SpecFloat.SFmul prec emax x y.
Definition ge (x y : number) : bool := SpecFloat.SFleb y x.
Definition lt (x y : number) : bool := SpecFloat.SFltb x y.

(** [ToBoolean]: [NaN] and the two zeros are falsy. *)
Definition to_boolean (x : number) : bool :=
  match x with
  | SpecFloat.S754_nan | SpecFloat.S754_zero _ => false
  | _ => true
  end.

(** [x === Infinity] *)
Definition is_Infinity (x : number) : bool :=
  match x with
  | SpecFloat.S754_infinity false => true
  | _ => false
  end.

(** The number is a time: neither [NaN] nor an infinity. *)
Definition is_finite (x : number) : bool :=
  match x with
  | SpecFloat.S754_zero _ | SpecFloat.S754_finite _ _ _ => true
  | _ => false
  end.

(** The rational a number that is a time stands for. *)
Definition to_Q (x : number) : Q :=
  match x with
  | SpecFloat.S754_finite s m e =>
      ((if s then -1 else 1) * inject_Z (Z.pos m) * Qpower 2 e)%Q
  | _ => 0%Q
  end.

Definition THRESHOLD_PERCENT : number := of_Z 70.

(** [location]: its [href] and what [searchParams.get('v')] finds in it
    ([None] for [null]). *)
Record Location : Type := {
  href : string;
  v : option string
}.

(** What a callback reads from the page when it runs. *)
Record Page : Type := {
  location : Location;
  title : string;          (* [document.title] *)
  menu : bool;             (* one of the three menu containers is found *)
  button : bool;           (* a [.ytwt-watched-btn] is already there *)
  video : option nat       (* the element [document.querySelector('video')]
                              finds, by identity *)
}.

(** The media element's clock when [timeupdate] fires. *)
Record Video : Type := {
  currentTime : number;
  duration : number
}.

Record State : Type := {
  sessionMarked : gset string;
  lastHref : string;
  timers : nat;            (* [setTimeout] callbacks of [onNavigation] not
                              yet run *)
  attached : gset nat      (* the elements whose [_ytwt_listeners_attached]
                              is set: each carries the two listeners once *)
}.

Definition getVideoId (p : Page) : option string := v (location p).

Definition record_watch_msg (vid : string) (p : Page) : Msg.t :=
  {| Msg.type := Some "record_watch"; Msg.videoId := Some vid;
     Msg.meta := Some {| Msg.title := Some (title p) |} |}.

Definition get_video_msg (vid : option string) : Msg.t :=
  {| Msg.type := Some "get_video"; Msg.videoId := vid; Msg.meta := None |}.

(** [sessionMarked.add(vid)], the [record_watch] message, and the
    [get_video] message of [updateButtonCountLocal]. *)
Definition mark (vid : string) (p : Page) (st : State) : State * list Msg.t :=
  ({| sessionMarked := {[vid]} ∪ sessionMarked st; lastHref := lastHref st;
      timers := timers st; attached := attached st |},
   [record_watch_msg vid p; get_video_msg (Some vid)]).

(** The [ended] listener. *)
Definition ended (p : Page) (st : State) : State * list Msg.t :=
  match getVideoId p with
  | None => (st, [])
  | Some vid =>
      if String.eqb vid "" then (st, [])
      else if bool_decide (vid ∈ sessionMarked st) then (st, [])
      else mark vid p st
  end.

(** [video.duration || 0] *)
Definition or_zero (d : number) : number :=
  if to_boolean d then d else of_Z 0.

(** The [timeupdate] listener. *)
Definition timeupdate (p : Page) (vd : Video) (st : State) : State * list Msg.t :=
  match getVideoId p with
  | None => (st, [])
  | Some vid =>
      if String.eqb vid "" then (st, [])
      else
        let duration := or_zero (duration vd) in
        if negb (to_boolean duration) || is_Infinity duration then (st, [])
        else
          let percent := mul (div (currentTime vd) duration) (of_Z 100) in
          if ge percent THRESHOLD_PERCENT
             && negb (bool_decide (vid ∈ sessionMarked st))
          then mark vid p st
          else (st, [])
  end.

(** [onClick] of the button: the history of the current video is asked for. *)
Definition onClick (p : Page) : list Msg.t :=
  match getVideoId p with
  | None => []
  | Some vid => if String.eqb vid "" then [] else [get_video_msg (Some vid)]
  end.

(** The request for the current data that follows a fresh button. *)
Definition insertButtonIfMissing (p : Page) : list Msg.t :=
  if negb (menu p) then []
  else if button p then []
  else [get_video_msg (getVideoId p)].

Definition attachVideoListeners (p : Page) (st : State) : State :=
  match video p with
  | None => st
  | Some el =>
      if bool_decide (el ∈ attached st) then st
      else {| sessionMarked := sessionMarked st; lastHref := lastHref st;
              timers := timers st; attached := {[el]} ∪ attached st |}
  end.

(** [onNavigation]: a new session set, and the 700 ms timer. *)
Definition onNavigation (st : State) : State :=
  {| sessionMarked := ∅; lastHref := lastHref st;
     timers := S (timers st); attached := attached st |}.

(** The callback of [hrefObserver]. *)
Definition hrefObserver (p : Page) (st : State) : State :=
  if bool_decide (href (location p) ≠ lastHref st) then
    onNavigation {| sessionMarked := sessionMarked st;
                    lastHref := href (location p);
                    timers := timers st; attached := attached st |}
  else st.

(** The callback of a timer set by [onNavigation]. *)
Definition timeout (p : Page) (st : State) : State * list Msg.t :=
  match timers st with
  | O => (st, [])
  | S n =>
      (attachVideoListeners p
         {| sessionMarked := sessionMarked st; lastHref := lastHref st;
            timers := n; attached := attached st |},
       insertButtonIfMissing p)
  end.

(** What the page does to the script. *)
Inductive event : Type :=
| Mutation (p : Page)                             (* the observer is called *)
| Timeout (p : Page)                              (* a timer fires *)
| Click (p : Page)                                (* the button is clicked *)
| Ended (el : nat) (p : Page)                     (* [ended] on element [el] *)
| TimeUpdate (el : nat) (p : Page) (vd : Video).  (* [timeupdate] on [el] *)

Definition step (ev : event) (st : State) : State * list Msg.t :=
  match ev with
  | Mutation p => (hrefObserver p st, [])
  | Timeout p => timeout p st
  | Click p => (st, onClick p)
  | Ended el p =>
      if bool_decide (el ∈ attached st) then ended p st else (st, [])
  | TimeUpdate el p vd =>
      if bool_decide (el ∈ attached st) then timeupdate p vd st else (st, [])
  end.

Fixpoint run (evs : list event) (st : State) : State * list Msg.t :=
  match evs with
  | [] => (st, [])
  | ev :: rest =>
      let '(st', out) := step ev st in
      let '(st'', out') := run rest st' in
      (st'', (out ++ out')%list)
  end.

(** The script's start: [lastHref] is the current address and
    [onNavigation()] is called once. *)
Definition init (p : Page) : State :=
  onNavigation {| sessionMarked := ∅; lastHref := href (location p);
                  timers := 0; attached := ∅ |}.

(** The [record_watch] messages for [vid] among the messages sent. *)
Definition is_record_watch (vid : string) (m : Msg.t) : bool :=
  bool_decide (Msg.type m = Some "record_watch" ∧ Msg.videoId m = Some vid).

Definition recorded (vid : string) (out : list Msg.t) : nat :=
  length (List.filter (is_record_watch vid) out).

(** A mutation that the observer takes for a navigation. *)
Definition navigates (ev : event) (st : State) : bool :=
  match ev with
  | Mutation p => bool_decide (href (location p) ≠ lastHref st)
  | _ => false
  end.

(** No event of the run is taken for a navigation: one session. *)
Fixpoint one_session (evs : list event) (st : State) : Prop :=
  match evs with
  | [] => True
  | ev :: rest => navigates ev st = false ∧ one_session rest (step ev st).1
  end.

(** A watch page as the callbacks find it, and a reading of the player. *)
Definition watch_page (id : string) : Page :=
  {| location := {| href := "https://www.youtube.com/watch?v=" +:+ id;
                    v := Some id |};
     title := "Intro - YouTube"; menu := true; button := true;
     video := Some 1%nat |}.

Definition at_position (t d : Z) : Video :=
  {| currentTime := of_Z t; duration := of_Z d |}.

(** The position has reached the threshold of a duration that is a
    positive time: [currentTime / duration * 100 >= THRESHOLD_PERCENT], as
    the numbers are divided, multiplied and compared. *)
Definition reaches_threshold (vd : Video) : Prop :=
  is_finite (duration vd) = true
  ∧ lt (of_Z 0) (duration vd) = true
  ∧ ge (mul (div (currentTime vd) (duration vd)) (of_Z 100))
       THRESHOLD_PERCENT = true.

(** A media element reports [NaN], [Infinity] or a time that is not
    negative. *)
Definition valid_duration (n : number) : Prop := lt n (of_Z 0) = false.

End ContentScript.

(** ** The store's operations, as the messages that ask for them *)

Module Store.
Import ServiceWorker.

Definition request (type : string) (videoId : option string)
    (meta : option Msg.Meta) : option Msg.t :=
  Some {| Msg.type := Some type; Msg.videoId := videoId; Msg.meta := meta |}.

Definition getRecord (e : Env) (id : string) : DB -> outcome * DB :=
  onMessage e (request "get_video" (Some id) None).

Definition recordWatch (e : Env) (id : string) (meta : option Msg.Meta)
  : DB -> outcome * DB :=
  onMessage e (request "record_watch" (Some id) meta).

Definition listRecords (e : Env) : DB -> outcome * DB :=
  onMessage e (request "get_all_videos" None None).

Definition exportSnapshot (e : Env) : DB -> outcome * DB :=
  onMessage e (request "export_json" None None).

(** The message types the listener knows. *)
Definition known_types : list (option string) :=
  [Some "get_video"; Some "record_watch"; Some "get_all_videos";
   Some "export_json"].

(** The storage engine works. *)
Definition works (c : StorageCall) : Prop :=
  open_rejects c = false ∧ request_errors c = false.

Definition no_faults (e : Env) : Prop := works (first e) ∧ works (second e).

(** The service worker at clock reading [t], the storage engine working. *)
Definition working : StorageCall :=
  {| open_rejects := false; request_errors := false |}.

Definition at_time (t : string) : Env :=
  {| now := t; document := None; first := working; second := working |}.

Definition titled (t : string) : option Msg.Meta :=
  Some {| Msg.title := Some t |}.

(** The invariant of a record (section 3 of the specification). *)
Definition record_inv (r : WatchRecord) : Prop :=
  watchCount r = Z.of_nat (length (events r))
  ∧ (events r ≠ [] → lastSeenAt r = last (events r)).

Definition store_inv (db : DB) : Prop :=
  ∀ k r, db !! k = Some r → record_inv r.

(** Every record sits at the key its key path [videoId] gives. *)
Definition keyed (db : DB) : Prop :=
  ∀ k r, db !! k = Some r → videoId r = Some k.

(** The call was answered with [{success: true, watchCount}]. *)
Definition succeeded (o : outcome) : Prop :=
  ∃ n, o = Responded (RWatch true n).

(** The record [record_watch] starts from when nothing is found. *)
Definition fresh (id : string) : WatchRecord :=
  {| videoId := Some id; watchCount := 0; events := [];
     title := None; lastSeenAt := None |}.

(** What [getVideo] resolves with once the database is open. *)
Definition read (c : StorageCall) (id : string) (db : DB) : option WatchRecord :=
  if request_errors c then None else db !! id.

(** The record [record_watch] hands to [putVideo]. *)
Definition appended (e : Env) (existing : WatchRecord) (t : option string)
  : WatchRecord :=
  {| videoId := videoId existing;
     watchCount := num_or (watchCount existing) 0 + 1;
     events := events existing ++ [now e];
     title := t;
     lastSeenAt := (events existing ++ [now e])
                     !! (length (events existing ++ [now e]) - 1)%nat |}.

(** Timestamps in the format of [toISOString] compare as strings the way
    the instants they name compare in time. *)
Definition chronological (events : list string) : Prop :=
  Sorted String.le events.

(** A sequence of [recordWatch] calls for one identifier. *)
Definition calls_for (id : string) (calls : list (Env * option Msg.Meta))
  : list (Env * option Msg.t) :=
  (λ c, (c.1, request "record_watch" (Some id) c.2)) <$> calls.

(** Each call starts from what the store holds for the identifier: no
    record, or the record the call before it has put. *)
Fixpoint chained (id : string) (calls : list (Env * option Msg.Meta))
    (db : DB) : Prop :=
  match calls with
  | [] => True
  | (e, meta) :: rest =>
      read (first e) id db = db !! id
      ∧ chained id rest (recordWatch e id meta db).2
  end.

(** No message of the run was a [record_watch] for [id] that was answered
    with success. *)
Fixpoint never_recorded (id : string) (inputs : list (Env * option Msg.t))
    (db : DB) : Prop :=
  match inputs with
  | [] => True
  | (e, msg) :: rest =>
      ¬ ((∃ meta, msg = request "record_watch" (Some id) meta)
         ∧ succeeded (onMessage e msg db).1)
      ∧ never_recorded id rest (onMessage e msg db).2
  end.

(** [meta && meta.title] *)
Definition meta_title (meta : option Msg.Meta) : option string :=
  match meta with
  | Some mt => Msg.title mt
  | None => None
  end.

(** A failure of the first storage call of a run: the open or the request. *)
Definition first_call_fails (e : Env) : Prop :=
  open_rejects (first e) = true ∨ request_errors (first e) = true.

(** The answers of the calls count them: 1, 2, ... *)
Definition counted (from : Z) (calls : list (Env * option Msg.Meta))
  : list outcome :=
  imap (λ i _, Responded (RWatch true (from + Z.of_nat (S i)))) calls.

(** The triple (itemId, watchCount, events) of a record, and the triples a
    reader finds in an export: it parses the text and reads the three
    properties of each object of the array. *)
Definition triple (r : WatchRecord) : option string * Z * list string :=
  (videoId r, watchCount r, events r).

Definition as_string (v : JSON.value) : option string :=
  match v with
  | JSON.Str s => Some s
  | _ => None
  end.

Definition triple_of_json (v : JSON.value)
  : option (option string * Z * list string) :=
  match v with
  | JSON.Object props =>
      match JSON.get "watchCount" props, JSON.get "events" props with
      | Some (JSON.Number n), Some (JSON.Array items) =>
          match mapM as_string items with
          | Some evs => Some (JSON.get "videoId" props ≫= as_string, n, evs)
          | None => None
          end
      | _, _ => None
      end
  | _ => None
  end.

Definition triples_of_text (json : string)
  : option (list (option string * Z * list string)) :=
  match JSON.parse json with
  | Some (JSON.Array items) => mapM triple_of_json items
  | _ => None
  end.

(** The clock readings of the calls, in the order of the calls. *)
Definition readings (calls : list (Env * option Msg.Meta)) : list string :=
  (λ c, now c.1) <$> calls.

(** What C1 says of the calls' answers and of the record afterwards. *)
Definition counts_calls (id : string) (calls : list (Env * option Msg.Meta))
    (db : DB) : Prop :=
  (run (calls_for id calls) db).1 = counted 0 calls
  ∧ ∀ e, works (first e) →
      ∃ r, getRecord e id (run (calls_for id calls) db).2
             = (Responded (RRecord r), (run (calls_for id calls) db).2)
           ∧ watchCount r = Z.of_nat (length calls)
           ∧ length (events r) = length calls
           ∧ events r = readings calls.

End Store.

(** ** The channel between the two scripts *)

Module Extension.
Import ServiceWorker.

(** The messages the content script sent, as the service worker gets them
    at clock reading [clock] with the storage engine working. *)
Definition deliver (clock : string) (msgs : list Msg.t)
  : list (Env * option Msg.t) :=
  (λ m, (Store.at_time clock, Some m)) <$> msgs.

End Extension.

(** ** What the content script shows after [onClick] *)

Module Tooltip.
Import ServiceWorker.

(** What the callback of [sendMessage] gets for a [get_video] request: the
    record, or [null] or [undefined]. *)
Definition received (o : outcome) : option WatchRecord :=
  match o with
  | Responded (RRecord r) => Some r
  | _ => None
  end.

Definition newline : string := String "010" "".

Section Lines.
(** [new Date(d).toLocaleString()], which depends on the locale. *)
Variable toLocaleString : string → string.

(** The lines [onClick] collects for a record: the count, and when there are
    events an empty line and the ten latest of them, the latest first. *)
Definition lines (res : WatchRecord) : list string :=
  let count :=
    "Watched " +:+ JSON.number_to_string (num_or (watchCount res) 0)
      +:+ " times" in
  match events res with
  | [] => [count]
  | _ :: _ => count :: "" :: (toLocaleString <$> take 10 (reverse (events res)))
  end.

(** The text handed to [showSimpleTooltip]. *)
Definition text (res : option WatchRecord) : string :=
  match res with
  | None => "No watch history for this video."
  | Some r => String.concat newline (lines r)
  end.

End Lines.





End Tooltip.

(** ** The popup: [src/popup/popup.js] *)

Module Popup.
Import ServiceWorker.

(** What the callback gets for a [get_all_videos] request: the array, or
    [null] or [undefined]. *)
Definition received (o : outcome) : option (list WatchRecord) :=
  match o with
  | Responded (RList all) => Some all
  | _ => None
  end.

(** The three characters the source has between the label and the count. *)
Definition dash : string :=
  String "226" (String "128" (String "154"
    (String "195" (String "132" (String "195" (String "174" ""))))))%char.

(** [v.title || v.videoId], as a template prints it. *)
Definition label (v : WatchRecord) : string :=
  match (if truthy (title v) then title v else videoId v) with
  | Some s => s
  | None => "undefined"
  end.

Definition line (v : WatchRecord) : string :=
  label v +:+ " " +:+ dash +:+ " "
    +:+ JSON.number_to_string (watchCount v) +:+ " times".

(** What the popup shows: the text of [#summary], and the text of [#output]
    once it is displayed. *)
Record View : Type := {
  summary : string;
  output : option string
}.

Definition loadSummary (list : option (list WatchRecord)) : View :=
  match list with
  | None | Some [] =>
      {| summary := "No watched videos recorded yet."; output := None |}
  | Some l =>
      {| summary := "Tracked videos: "
                      +:+ JSON.number_to_string (Z.of_nat (length l));
         output := Some (String.concat Tooltip.newline (line <$> l)) |}
  end.

(** The click on [#export]: the content of the file that is downloaded, if
    one is. *)
Definition exportBtn (res : outcome) : option string :=
  match res with
  | Responded (RJson json) => if String.eqb json "" then None else Some json
  | _ => None
  end.

(** The click on [#clear].  When the user refuses the [confirm] the handler
    returns: nothing is sent and no alert is shown.  Otherwise it sends its
    request, and the answer decides which alert follows. *)
Definition clearBtn_sends (confirmed : bool) : list Msg.t :=
  if confirmed then
    [{| Msg.type := Some "get_all_videos"; Msg.videoId := None;
        Msg.meta := None |}]
  else [].

Definition clearBtn_alert (confirmed : bool) (all : option (list WatchRecord))
  : option string :=
  if confirmed then
    match all with
    | None | Some [] => Some "Nothing to clear"
    | Some _ =>
        Some "Developer: clear operation is not implemented in this prototype. To clear, remove extension data from chrome://extensions or re-install extension."
    end
  else None.

End Popup.

(** ** The helpers of [src/shared/db.js] *)

Module SharedDb.

Definition getVideo (videoId : option string) : Msg.t :=
  {| Msg.type := Some "get_video"; Msg.videoId := videoId; Msg.meta := None |}.

Definition getAllVideos : Msg.t :=
  {| Msg.type := Some "get_all_videos"; Msg.videoId := None; Msg.meta := None |}.

Definition exportJson : Msg.t :=
  {| Msg.type := Some "export_json"; Msg.videoId := None; Msg.meta := None |}.

End SharedDb.

(** ** Runs of the listener, message by message *)

Module Trace.
Import ServiceWorker.

(** The message asks to record a watch of [id]. *)
Definition asks_record (id : string) (msg : option Msg.t) : bool :=
  match msg with
  | Some m =>
      bool_decide (Msg.type m = Some "record_watch" ∧ Msg.videoId m = Some id)
  | None => false
  end.

Definition is_success (o : outcome) : bool :=
  match o with
  | Responded (RWatch true _) => true
  | _ => false
  end.

(** The clock readings of the messages of a run that recorded a watch of
    [id], in the order of the run. *)
Fixpoint recorded_at (id : string) (inputs : list (Env * option Msg.t))
    (db : DB) : list string :=
  match inputs with
  | [] => []
  | (e, msg) :: rest =>
      (if asks_record id msg && is_success (onMessage e msg db).1
       then [now e] else [])
      ++ recorded_at id rest (onMessage e msg db).2
  end.

(** How many messages of a run ask to record a watch of [id]. *)
Definition asked (id : string) (inputs : list (Env * option Msg.t)) : nat :=
  length (List.filter (λ i, asks_record id i.2) inputs).

(** No read of the run fails. *)
Definition reads_work (inputs : list (Env * option Msg.t)) : Prop :=
  Forall (λ i, request_errors (first i.1) = false) inputs.

(** The run is one of the service worker: there is no [document]. *)
Definition in_service_worker (inputs : list (Env * option Msg.t)) : Prop :=
  Forall (λ i, document i.1 = None) inputs.

(** What a stored record looks like once something was recorded. *)
Definition watched (k : string) (r : WatchRecord) : Prop :=
  videoId r = Some k
  ∧ 1 ≤ watchCount r
  ∧ watchCount r = Z.of_nat (length (events r))
  ∧ truthy (title r) = true
  ∧ is_Some (lastSeenAt r)
  ∧ lastSeenAt r = last (events r).

(** A reader of an export: the records of the objects of the array. *)
Definition fromJSON (v : JSON.value) : option WatchRecord :=
  match v with
  | JSON.Object props =>
      match JSON.get "watchCount" props, JSON.get "events" props with
      | Some (JSON.Number n), Some (JSON.Array items) =>
          match mapM Store.as_string items with
          | Some evs =>
              Some {| videoId := JSON.get "videoId" props ≫= Store.as_string;
                      watchCount := n;
                      events := evs;
                      title := JSON.get "title" props ≫= Store.as_string;
                      lastSeenAt :=
                        JSON.get "lastSeenAt" props ≫= Store.as_string |}
          | None => None
          end
      | _, _ => None
      end
  | _ => None
  end.

Definition records_of_text (json : string) : option (list WatchRecord) :=
  match JSON.parse json with
  | Some (JSON.Array items) => mapM fromJSON items
  | _ => None
  end.

End Trace.

(** ** Runs of the detector, event by event *)

Module Session.
Import ContentScript.

(** The elements [attachVideoListeners] adds its two listeners to. *)
Definition added_listeners (p : Page) (st : State) : list nat :=
  match video p with
  | None => []
  | Some el => if bool_decide (el ∈ attached st) then [] else [el]
  end.

Definition listeners_added (ev : event) (st : State) : list nat :=
  match ev with
  | Timeout p =>
      match timers st with
      | O => []
      | S _ => added_listeners p st
      end
  | _ => []
  end.

(** The elements that got listeners during a run, in the order of the run. *)
Fixpoint attach_log (evs : list event) (st : State) : list nat :=
  match evs with
  | [] => []
  | ev :: rest => listeners_added ev st ++ attach_log rest (step ev st).1
  end.

(** How many events of a run the observer takes for a navigation. *)
Fixpoint navigations (evs : list event) (st : State) : nat :=
  match evs with
  | [] => O
  | ev :: rest =>
      ((if navigates ev st then 1 else 0) + navigations rest (step ev st).1)%nat
  end.

(** The page a callback finds. *)
Definition page_of (ev : event) : Page :=
  match ev with
  | Mutation p | Timeout p | Click p | Ended _ p | TimeUpdate _ p _ => p
  end.

(** The address has no usable [v] parameter. *)
Definition no_identifier (p : Page) : Prop :=
  getVideoId p = None ∨ getVideoId p = Some "".

(** The two messages a callback sends for the page it finds: [get_video]
    for what the page has as [v] parameter, without [meta]; and
    [record_watch] for a [v] parameter that is not empty, with the page's
    [document.title] as the title of [meta]. *)
Definition well_formed (p : Page) (m : Msg.t) : Prop :=
  m = {| Msg.type := Some "get_video"; Msg.videoId := getVideoId p;
         Msg.meta := None |}
  ∨ ∃ vid, getVideoId p = Some vid ∧ vid ≠ ""
           ∧ m = {| Msg.type := Some "record_watch"; Msg.videoId := Some vid;
                    Msg.meta := Some {| Msg.title := Some (title p) |} |}.

(** The message was sent by a callback of the run, for the page it found. *)
Definition sent_by (evs : list event) (m : Msg.t) : Prop :=
  ∃ ev, ev ∈ evs ∧ well_formed (page_of ev) m.

(** The duration of the update is not a time. *)
Definition unknown_duration (ev : event) : Prop :=
  match ev with
  | TimeUpdate _ _ vd => duration vd = NaN ∨ duration vd = Infinity
  | Ended _ _ => False
  | _ => True
  end.

End Session.

(** ** The runs of the listener, call by call

    The listener returns [true] at once and its [async] body goes on when
    the storage engine calls back, so the bodies of several messages are
    under way together.  Each storage call ([getVideo], [putVideo],
    [getAllVideos]) opens a transaction of its own, which the engine runs as
    a whole; between the [getVideo] and the [putVideo] of one [record_watch]
    the calls of other runs can take place. *)

Module Handlers.
Import ServiceWorker.

(** [record_watch] up to its [putVideo]: the object it is about to put. *)
Definition prepare (e : Env) (m : Msg.t) : Async WatchRecord :=
  found ← getVideo (first e) (Msg.videoId m);
  let existing :=
    match found with
    | Some r => r
    | None => {| videoId := Msg.videoId m; watchCount := 0; events := [];
                 title := None; lastSeenAt := None |}
    end in
  let watchCount' := num_or (watchCount existing) 0 + 1 in
  let events' := (events existing ++ [now e])%list in
  title' ← new_title e m existing;
  let lastSeenAt' := events' !! (length events' - 1)%nat in
  ret {| videoId := videoId existing; watchCount := watchCount';
         events := events'; title := title'; lastSeenAt := lastSeenAt' |}.

(** [putVideo] and the answer. *)
Definition commit (e : Env) (obj : WatchRecord) : Async response :=
  putVideo (second e) obj;;
  ret (RWatch true (watchCount obj)).

(** A run of the listener, by the storage calls it has still to make. *)
Inductive handler : Type :=
| Delivered (e : Env) (msg : option Msg.t)  (* no storage call made yet *)
| Putting (e : Env) (obj : WatchRecord)     (* [record_watch] between its
                                               [getVideo] and its [putVideo] *)
| Settled (o : outcome).                    (* answered, or rejected *)

Definition asks_put (msg : option Msg.t) : option Msg.t :=
  match msg with
  | Some m =>
      if bool_decide (Msg.type m = Some "record_watch") then Some m else None
  | None => None
  end.

(** The next storage call of a run, and what the body does after it up to
    its next call. *)
Definition advance (h : handler) (db : DB) : handler * DB :=
  match h with
  | Delivered e msg =>
      match asks_put msg with
      | Some m =>
          match prepare e m db with
          | (Resolved obj, db') => (Putting e obj, db')
          | (Rejected, db') => (Settled NoResponse, db')
          end
      | None => let '(o, db') := onMessage e msg db in (Settled o, db')
      end
  | Putting e obj =>
      match commit e obj db with
      | (Resolved r, db') => (Settled (Responded r), db')
      | (Rejected, db') => (Settled NoResponse, db')
      end
  | Settled o => (Settled o, db)
  end.

(** The runs under way, and a schedule: call after call, the run whose next
    storage call takes place. *)
Fixpoint exec (sched : list nat) (pool : list handler) (db : DB)
  : list handler * DB :=
  match sched with
  | [] => (pool, db)
  | i :: rest =>
      match pool !! i with
      | Some h =>
          let '(h', db') := advance h db in
          exec rest (<[i := h']> pool) db'
      | None => exec rest pool db
      end
  end.

Definition start (inputs : list (Env * option Msg.t)) : list handler :=
  (λ i, Delivered i.1 i.2) <$> inputs.

(** The schedule of runs that do not overlap: each makes its calls before
    the next makes its first. *)
Definition one_at_a_time (n : nat) : list nat :=
  seq 0 n ≫= λ i, [i; i].

(** The object a run is about to put keeps the invariant of a record. *)
Definition pending_inv (h : handler) : Prop :=
  match h with
  | Putting _ obj => Store.record_inv obj
  | _ => True
  end.

Definition settled_success (h : handler) : bool :=
  match h with
  | Settled o => Trace.is_success o
  | _ => false
  end.

(** The clock readings of the runs that were asked to record a watch of
    [id] and were answered with success, in the order of the messages. *)
Definition answered_at (id : string) (inputs : list (Env * option Msg.t))
    (pool : list handler) : list string :=
  omap (λ ih, if Trace.asks_record id ih.1.2 && settled_success ih.2
              then Some (now ih.1.1) else None)
    (zip inputs pool).

(** A run under way belongs to its message: it has not started, or the
    object it is about to put is keyed by the identifier of the message. *)
Definition belongs (inp : Env * option Msg.t) (h : handler) : Prop :=
  match h with
  | Delivered e msg => inp = (e, msg)
  | Putting _ obj => ∃ id, videoId obj = Some id ∧ Trace.asks_record id inp.2 = true
  | Settled o => Trace.is_success o = true → ∃ id, Trace.asks_record id inp.2 = true
  end.

(** The count of an object about to be put for [id] is at most [bound]. *)
Definition pending_le (id : string) (bound : Z) (h : handler) : Prop :=
  match h with
  | Putting _ obj => videoId obj = Some id → watchCount obj ≤ bound
  | _ => True
  end.

End Handlers.

(** * [JSON.parse] reads back what [JSON.stringify] wrote *)

Section JSONFacts.
Import JSON.

Lemma app_cons (c : ascii) (s t : string) :
  String c s +:+ t = String c (s +:+ t).
Proof. reflexivity. Qed.

Lemma app_empty_r (s : string) : s +:+ "" = s.
Proof. induction s as [|c s IH]; [done|]. by rewrite app_cons, IH. Qed.

Lemma app_assoc_str (a b c : string) : (a +:+ b) +:+ c = a +:+ (b +:+ c).
Proof. induction a as [|x a IH]; [done|]. by rewrite !app_cons, IH. Qed.

Lemma length_app_str (a b : string) :
  String.length (a +:+ b) = (String.length a + String.length b)%nat.
Proof.
  induction a as [|x a IH]; [done|]. rewrite app_cons. simpl. by rewrite IH.
Qed.

(** Strings. *)

Lemma parse_chars_quote_char (c : ascii) (tail : string) :
  parse_chars (quote_char c +:+ tail) = prepend (String c "") (parse_chars tail).
Proof. destruct c as [[] [] [] [] [] [] [] []]; reflexivity. Qed.

Lemma parse_chars_quote_chars (s rest : string) :
  parse_chars (quote_chars s +:+ String dquote rest) = Some (s, rest).
Proof.
  induction s as [|c s IH]; [done|].
  change (quote_chars (String c s)) with (quote_char c +:+ quote_chars s).
  by rewrite app_assoc_str, parse_chars_quote_char, IH.
Qed.

Lemma quote_app (s rest : string) :
  quote s +:+ rest = String dquote (quote_chars s +:+ String dquote rest).
Proof. unfold quote. by rewrite app_cons, app_assoc_str. Qed.

(** Numbers. *)

Lemma span_digits_stop (rest : string) :
  starts_digit rest = false → span_digits rest = ("", rest).
Proof. destruct rest as [|c rest]; [done|]. simpl. by intros ->. Qed.

Lemma span_digits_uint (u : uint) (rest : string) :
  starts_digit rest = false →
  span_digits (NilEmpty.string_of_uint u +:+ rest)
    = (NilEmpty.string_of_uint u, rest).
Proof.
  intros Hrest.
  induction u as [|u IH|u IH|u IH|u IH|u IH|u IH|u IH|u IH|u IH|u IH];
    [by apply span_digits_stop|..];
    cbn [NilEmpty.string_of_uint]; rewrite app_cons; cbn [span_digits];
    rewrite IH; reflexivity.
Qed.

Lemma to_uint_normal (p : positive) : unorm (Pos.to_uint p) = Pos.to_uint p.
Proof.
  rewrite <- (DecimalPos.Unsigned.to_of (Pos.to_uint p)).
  by rewrite DecimalPos.Unsigned.of_to.
Qed.

(** The decimal digits of a positive number start with a digit that is
    not zero. *)
Lemma to_uint_head (p : positive) :
  ∃ c ds, NilEmpty.string_of_uint (Pos.to_uint p) = String c ds
          ∧ is_digit c = true ∧ Ascii.eqb c "0" = false.
Proof.
  pose proof (to_uint_normal p) as Hnorm.
  pose proof (DecimalPos.Unsigned.to_uint_nonzero p) as Hnz.
  pose proof (DecimalPos.Unsigned.to_uint_nonnil p) as Hnn.
  destruct (Pos.to_uint p) as [|u|u|u|u|u|u|u|u|u|u];
    [done| |by eexists _, _..].
  exfalso. rewrite unorm_D0 in Hnorm.
  destruct u as [|u|u|u|u|u|u|u|u|u|u]; [by destruct Hnz|..].
  all: match type of Hnorm with
       | unorm ?d = _ =>
           assert (d ≠ Nil) as Hu by discriminate;
           pose proof (nb_digits_unorm d Hu) as Hle
       end.
  all: rewrite Hnorm in Hle; simpl in Hle; lia.
Qed.

Lemma parse_digits_N (n : N) (rest : string) :
  starts_digit rest = false →
  parse_digits (NilZero.string_of_uint (N.to_uint n) +:+ rest) = Some (n, rest).
Proof.
  intros Hrest. destruct n as [|p].
  - change (NilZero.string_of_uint (N.to_uint 0))
      with (NilEmpty.string_of_uint (D0 Nil)).
    unfold parse_digits. rewrite (span_digits_uint _ _ Hrest). reflexivity.
  - change (N.to_uint (N.pos p)) with (Pos.to_uint p).
    assert (NilZero.string_of_uint (Pos.to_uint p)
            = NilEmpty.string_of_uint (Pos.to_uint p)) as ->.
    { pose proof (DecimalPos.Unsigned.to_uint_nonnil p).
      by destruct (Pos.to_uint p). }
    unfold parse_digits. rewrite (span_digits_uint _ _ Hrest).
    destruct (to_uint_head p) as (c & ds & Hs & _ & Hc).
    rewrite Hs, Hc. cbn [andb]. rewrite <- Hs, NilEmpty.usu.
    change (N.of_uint (Pos.to_uint p)) with (Pos.of_uint (Pos.to_uint p)).
    by rewrite DecimalPos.Unsigned.of_to.
Qed.

Lemma digits_head (n : N) :
  ∃ c s, NilZero.string_of_uint (N.to_uint n) = String c s ∧ is_digit c = true.
Proof.
  destruct n as [|p]; [by eexists _, _|].
  change (N.to_uint (N.pos p)) with (Pos.to_uint p).
  destruct (to_uint_head p) as (c & ds & Hs & Hd & _).
  exists c, ds. split; [|done]. rewrite <- Hs.
  pose proof (DecimalPos.Unsigned.to_uint_nonnil p).
  by destruct (Pos.to_uint p).
Qed.

Lemma digit_not_minus (c : ascii) : is_digit c = true → Ascii.eqb c "-" = false.
Proof. destruct c as [[] [] [] [] [] [] [] []]; done. Qed.

Lemma number_to_string_cases (z : Z) :
  (0 <= z ∧ number_to_string z = NilZero.string_of_uint (N.to_uint (Z.to_N z)))
  ∨ (z < 0 ∧ number_to_string z
             = String "-" (NilZero.string_of_uint (N.to_uint (Z.to_N (- z))))).
Proof.
  destruct z as [|p|p]; [left|left|right]; split; try lia; reflexivity.
Qed.

Lemma parse_number_roundtrip (z : Z) (rest : string) :
  delimited rest →
  parse_number (number_to_string z +:+ rest) = Some (z, rest).
Proof.
  intros [Hd Hf]. unfold parse_number.
  destruct (number_to_string_cases z) as [[Hz ->]|[Hz ->]].
  - destruct (digits_head (Z.to_N z)) as (c & s & Hs & Hc).
    pose proof (parse_digits_N (Z.to_N z) rest Hd) as Hp.
    rewrite Hs in *. rewrite app_cons in *.
    rewrite (digit_not_minus c Hc), Hp, Hf. f_equal. f_equal. lia.
  - rewrite app_cons. change (Ascii.eqb "-" "-") with true. cbv iota.
    rewrite (parse_digits_N _ rest Hd), Hf. f_equal. f_equal. lia.
Qed.

Lemma number_head (z : Z) :
  ∃ c s, number_to_string z = String c s
         ∧ is_digit c || Ascii.eqb c "-" = true.
Proof.
  destruct (number_to_string_cases z) as [[_ ->]|[_ ->]].
  - destruct (digits_head (Z.to_N z)) as (c & s & -> & Hc).
    exists c, s. by rewrite Hc.
  - by eexists _, _.
Qed.

(** Values. *)

Lemma value_ind' (P : value → Prop) :
  P Null →
  (∀ b, P (Bool b)) →
  (∀ n, P (Number n)) →
  (∀ s, P (Str s)) →
  (∀ items, Forall P items → P (Array items)) →
  (∀ props, Forall (λ kv, P kv.2) props → P (Object props)) →
  ∀ v, P v.
Proof.
  intros HNull HBool HNumber HStr HArray HObject.
  fix IH 1. intros [|b|n|s|items|props].
  - exact HNull.
  - apply HBool.
  - apply HNumber.
  - apply HStr.
  - apply HArray. induction items as [|v items IHitems]; constructor.
    + apply IH.
    + exact IHitems.
  - apply HObject. induction props as [|[k v] props IHprops]; constructor.
    + apply IH.
    + exact IHprops.
Qed.

(** The text of a value is read back, whatever delimited text follows. *)
Definition reads_back (v : value) : Prop :=
  ∀ fuel rest,
    (String.length (stringify v) ≤ fuel)%nat →
    delimited rest →
    parse_value fuel (stringify v +:+ rest) = Some (v, rest).

Lemma stringify_head (v : value) :
  ∃ c s, stringify v = String c s ∧ starts_value c = true.
Proof.
  destruct v as [|[]|n|s|items|props]; try (by eexists _, _).
  destruct (number_head n) as (c & s & Hs & Hc).
  exists c, s. split; [done|]. unfold starts_value. by rewrite Hc.
Qed.

Lemma parse_value_number (fuel : nat) (c : ascii) (r : string) :
  is_digit c || Ascii.eqb c "-" = true →
  parse_value (S fuel) (String c r)
    = match parse_number (String c r) with
      | Some (n, rest) => Some (Number n, rest)
      | None => None
      end.
Proof. destruct c as [[] [] [] [] [] [] [] []]; first [discriminate|reflexivity]. Qed.

Lemma parse_value_array (fuel : nat) (c : ascii) (r : string) :
  starts_value c = true →
  parse_value (S fuel) (String "[" (String c r))
    = match parse_elements fuel (String c r) with
      | Some (items, rest) => Some (Array items, rest)
      | None => None
      end.
Proof. destruct c as [[] [] [] [] [] [] [] []]; first [discriminate|reflexivity]. Qed.

Lemma delimited_punct (c : ascii) (rest : string) :
  c = ","%char ∨ c = "]"%char ∨ c = "}"%char → delimited (String c rest).
Proof. by intros [->|[->| ->]]. Qed.

Lemma delimited_empty : delimited "".
Proof. done. Qed.

Lemma join_cons (p : string) (ps : list string) :
  ps ≠ [] → join (p :: ps) = p +:+ "," +:+ join ps.
Proof. by destruct ps. Qed.

Lemma parse_elements_roundtrip (items : list value) :
  Forall reads_back items → items ≠ [] →
  ∀ fuel rest,
    (String.length (join (map stringify items)) < fuel)%nat →
    parse_elements fuel (join (map stringify items) +:+ String "]" rest)
      = Some (items, rest).
Proof.
  induction 1 as [|v vs Hv Hvs IH]; [done|]. intros _ fuel rest Hlen.
  destruct fuel as [|fuel]; [lia|].
  destruct vs as [|v' vs].
  - simpl in *. rewrite (Hv fuel (String "]" rest)); [done|lia|].
    apply delimited_punct. auto.
  - rewrite map_cons in *.
    rewrite (join_cons _ (map stringify (v' :: vs))) in * by done.
    set (j := join (map stringify (v' :: vs))) in *.
    rewrite !length_app_str in Hlen.
    change (String.length ",") with 1%nat in Hlen.
    rewrite !app_assoc_str, app_cons.
    change ("" +:+ ?x) with x.
    cbn [parse_elements].
    rewrite (Hv fuel); [|lia|apply delimited_punct; auto].
    cbn [skip_ws]. change (is_ws ",") with false. cbv iota.
    change (Ascii.eqb "," ",") with true. cbv iota.
    subst j. rewrite map_cons in *.
    rewrite IH; [done|done|lia].
Qed.

Lemma parse_value_quote (fuel : nat) (t : string) :
  parse_value (S fuel) (String dquote t)
    = match parse_chars t with
      | Some (str, rest) => Some (Str str, rest)
      | None => None
      end.
Proof. reflexivity. Qed.

Lemma parse_value_object (fuel : nat) (t : string) :
  parse_value (S fuel) (String "{" (String dquote t))
    = match parse_members fuel (String dquote t) with
      | Some (props, rest) => Some (Object props, rest)
      | None => None
      end.
Proof. reflexivity. Qed.

Lemma parse_members_quote (fuel : nat) (k t : string) :
  parse_members (S fuel)
    (String dquote (quote_chars k +:+ String dquote (String ":" t)))
  = match parse_value fuel t with
    | Some (v, r3) =>
        match skip_ws r3 with
        | String c rest =>
            if Ascii.eqb c "," then
              match parse_members fuel rest with
              | Some (kvs, rest') => Some ((k, v) :: kvs, rest')
              | None => None
              end
            else if Ascii.eqb c "}" then Some ([(k, v)], rest)
            else None
        | "" => None
        end
    | None => None
    end.
Proof.
  cbn [parse_members skip_ws]. change (is_ws dquote) with false. cbv iota.
  change (Ascii.eqb dquote dquote) with true. cbv iota.
  rewrite parse_chars_quote_chars. reflexivity.
Qed.

Lemma member_app (k : string) (v : value) (tail : string) :
  member (k, v) +:+ tail
  = String dquote (quote_chars k +:+ String dquote (String ":" (stringify v +:+ tail))).
Proof.
  unfold member. simpl. by rewrite !app_assoc_str, quote_app.
Qed.

Lemma parse_members_roundtrip (props : list (string * value)) :
  Forall (λ kv, reads_back kv.2) props → props ≠ [] →
  ∀ fuel rest,
    (String.length (join (map member props)) < fuel)%nat →
    parse_members fuel (join (map member props) +:+ String "}" rest)
      = Some (props, rest).
Proof.
  induction 1 as [|[k v] kvs Hv Hkvs IH]; [done|]. intros _ fuel rest Hlen.
  destruct fuel as [|fuel]; [lia|]. simpl in Hv.
  assert (String.length (stringify v) ≤ String.length (member (k, v)))%nat as Hm.
  { unfold member. rewrite !length_app_str. simpl. lia. }
  destruct kvs as [|kv' kvs].
  - simpl join in *. rewrite member_app, parse_members_quote.
    rewrite (Hv fuel (String "}" rest)); [done|lia|].
    apply delimited_punct. auto.
  - rewrite map_cons in *.
    rewrite (join_cons _ (map member (kv' :: kvs))) in * by done.
    set (j := join (map member (kv' :: kvs))) in *.
    rewrite !length_app_str in Hlen.
    change (String.length ",") with 1%nat in Hlen.
    rewrite app_assoc_str, member_app, parse_members_quote.
    rewrite app_assoc_str. change ("," +:+ ?x) with (String "," x).
    rewrite (Hv fuel); [|lia|apply delimited_punct; auto].
    cbn [skip_ws]. change (is_ws ",") with false. cbv iota.
    change (Ascii.eqb "," ",") with true. cbv iota.
    subst j. rewrite map_cons in *.
    rewrite IH; [done|done|lia].
Qed.

Lemma join_head (p : string) (ps : list string) (c : ascii) (s : string) :
  p = String c s → ∃ s', join (p :: ps) = String c s'.
Proof. intros ->. destruct ps; by eexists. Qed.

Lemma bracket_app (o c : ascii) (j rest : string) :
  (String o "" +:+ j +:+ String c "") +:+ rest = String o (j +:+ String c rest).
Proof.
  rewrite app_cons. change ("" +:+ ?x) with x.
  by rewrite app_cons, app_assoc_str.
Qed.

(** Every value's text is read back. *)
Lemma stringify_reads_back (v : value) : reads_back v.
Proof.
  induction v as [|b|n|s|items IH|props IH] using value_ind';
    intros fuel rest Hlen Hrest.
  - destruct fuel; [simpl in Hlen; lia|]. reflexivity.
  - destruct b; (destruct fuel; [simpl in Hlen; lia|]); reflexivity.
  - change (stringify (Number n)) with (number_to_string n) in *.
    destruct (number_head n) as (c & s & Hs & Hc).
    destruct fuel; [rewrite Hs in Hlen; simpl in Hlen; lia|].
    rewrite Hs, app_cons, (parse_value_number _ _ _ Hc), <- app_cons, <- Hs.
    by rewrite (parse_number_roundtrip n rest Hrest).
  - change (stringify (Str s)) with (quote s) in *.
    destruct fuel; [unfold quote in Hlen; simpl in Hlen; lia|].
    by rewrite quote_app, parse_value_quote, parse_chars_quote_chars.
  - change (stringify (Array items))
      with ("[" +:+ join (map stringify items) +:+ "]") in *.
    rewrite !length_app_str in Hlen. simpl in Hlen.
    destruct fuel as [|fuel]; [lia|].
    rewrite bracket_app.
    destruct items as [|v items]; [reflexivity|].
    destruct (stringify_head v) as (c & s & Hs & Hc).
    destruct (join_head _ (map stringify items) c s Hs) as [s' Hj].
    rewrite map_cons in *. rewrite Hj, app_cons, (parse_value_array _ _ _ Hc).
    rewrite <- app_cons, <- Hj, <- map_cons.
    rewrite (parse_elements_roundtrip _ IH); [done|done|]. rewrite map_cons. lia.
  - change (stringify (Object props))
      with ("{" +:+ join (map member props) +:+ "}") in *.
    rewrite !length_app_str in Hlen. simpl in Hlen.
    destruct fuel as [|fuel]; [lia|].
    rewrite bracket_app.
    destruct props as [|[k v] props]; [reflexivity|].
    assert (member (k, v)
            = String dquote ((quote_chars k +:+ String dquote "")
                             +:+ ":" +:+ stringify v)) as Hs
      by reflexivity.
    destruct (join_head _ (map member props) _ _ Hs) as [s' Hj].
    rewrite map_cons in *. rewrite Hj, app_cons, parse_value_object.
    rewrite <- app_cons, <- Hj, <- map_cons.
    rewrite (parse_members_roundtrip _ IH); [done|done|]. rewrite map_cons. lia.
Qed.

(** [JSON.parse (JSON.stringify v)] is [v]. *)
Lemma parse_stringify (v : value) : parse (stringify v) = Some v.
Proof.
  unfold parse.
  rewrite <- (app_empty_r (stringify v)) at 2.
  by rewrite (stringify_reads_back v _ "" (le_n _) delimited_empty).
Qed.

End JSONFacts.

(** * Properties of the store *)

Section StoreFacts.
Import ServiceWorker Store.

#[local] Arguments stringify_all : simpl never.

Ltac unfold_async :=
  unfold getRecord, recordWatch, listRecords, exportSnapshot, request,
    onMessage, handle, record_watch, getVideo, putVideo, getAllVideos,
    new_title, openDb, mbind, mret, Async_bind, Async_ret, bind, ret, throw
    in *;
  simpl in *.

Ltac cases := repeat case_match; simplify_eq/=.

(** One test of [record_watch] after its read. *)
Ltac branch :=
  first
    [ match goal with |- context [truthy ?x] => destruct (truthy x) end
    | match goal with |- context [document ?e] => destruct (document e) end
    | match goal with
      | |- context [open_rejects (second ?e)] => destruct (open_rejects (second e))
      end
    | match goal with
      | |- context [request_errors (second ?e)] =>
          destruct (request_errors (second e))
      end
    | match goal with
      | |- context [videoId ?r] => is_var r; destruct (videoId r)
      end ];
  simpl; try done.

(** C10: a message that is [null], has no (or an empty) [type], or a
    [type] that is none of the four known ones, is answered with [null]
    and the store is left as it was. *)
Theorem unknown_message_null (e : Env) (msg : option Msg.t) (db : DB) :
  match msg with
  | None => True
  | Some m => Msg.type m ∉ known_types
  end →
  onMessage e msg db = (Responded RNull, db).
Proof.
  destruct msg as [m|]; [|done].
  unfold known_types. rewrite !not_elem_of_cons. intros (H1 & H2 & H3 & H4 & _).
  unfold onMessage, handle.
  destruct (negb (truthy (Msg.type m))); [done|].
  rewrite !bool_decide_eq_false_2 by done. done.
Qed.

Lemma unknown_message_null_witness :
  onMessage {| now := "2026-01-01T00:00:00.000Z"; document := None;
               first := {| open_rejects := true; request_errors := true |};
               second := {| open_rejects := false; request_errors := false |} |}
    (request "clear_all" (Some "abc123") None) ∅
  = (Responded RNull, ∅).
Proof.
  apply unknown_message_null. simpl. unfold known_types.
  rewrite !not_elem_of_cons. repeat split; try discriminate.
  apply not_elem_of_nil.
Defined.

Lemma num_or_0 (a : Z) : num_or a 0 = a.
Proof. unfold num_or. destruct (Z.eqb_spec a 0); congruence. Qed.

(** The one way a message changes the store. *)
Lemma recordWatch_spec (e : Env) (id : string) (meta : option Msg.Meta) (db : DB) :
  let m := {| Msg.type := Some "record_watch"; Msg.videoId := Some id;
              Msg.meta := meta |} in
  let existing := default (fresh id) (read (first e) id db) in
  recordWatch e id meta db =
    if open_rejects (first e) then (NoResponse, db)
    else match (new_title e m existing db).1, videoId existing with
         | Resolved t, Some k =>
             if open_rejects (second e) || request_errors (second e)
             then (NoResponse, db)
             else (Responded (RWatch true (watchCount existing + 1)),
                   <[k := appended e existing t]> db)
         | _, _ => (NoResponse, db)
         end.
Proof.
  intros m existing. subst m existing.
  unfold recordWatch, request, onMessage.
  change (handle e (Some ?x)) with (record_watch e x).
  unfold record_watch, getVideo, putVideo, new_title, openDb, read, fresh,
    appended, mbind, Async_bind, bind, ret, throw.
  simpl.
  destruct (open_rejects (first e)); [done|].
  destruct (request_errors (first e)); [|destruct (db !! id) as [r|]];
    simpl; rewrite ?num_or_0; repeat branch.
Qed.

Lemma onMessage_cases (e : Env) (msg : option Msg.t) (db : DB) :
  (∃ id meta, msg = request "record_watch" (Some id) meta)
  ∨ ((onMessage e msg db).2 = db ∧ ¬ succeeded (onMessage e msg db).1).
Proof.
  destruct msg as [[ty vid mt]|]; [|right; split; [done|by intros [? ?]]].
  destruct (decide (ty = Some "record_watch")) as [->|Hty].
  - destruct vid as [id|]; [left; by eauto|].
    right. unfold onMessage.
    change (handle e (Some ?x)) with (record_watch e x).
    unfold record_watch, getVideo, openDb, mbind, Async_bind, bind, ret, throw.
    simpl. destruct (open_rejects (first e)); (split; [done|by intros [? ?]]).
  - right. unfold onMessage, handle. simpl.
    rewrite (bool_decide_eq_false_2 _ Hty).
    unfold_async. cases; (split; [done|by intros [? ?]]).
Qed.

Lemma run_cons (e : Env) (msg : option Msg.t) (rest : list (Env * option Msg.t))
    (db : DB) :
  run ((e, msg) :: rest) db =
    ((onMessage e msg db).1 :: (run rest (onMessage e msg db).2).1,
     (run rest (onMessage e msg db).2).2).
Proof.
  simpl. destruct (onMessage e msg db) as [o db1]. simpl.
  destruct (run rest db1). reflexivity.
Qed.

Lemma existing_key (e : Env) (id : string) (db : DB) :
  keyed db → videoId (default (fresh id) (read (first e) id db)) = Some id.
Proof.
  intros Hk. unfold read.
  destruct (request_errors (first e)); [done|].
  destruct (db !! id) as [r|] eqn:Hr; [by apply Hk|done].
Qed.

(** Under the key path, a call either leaves the store alone and is not
    answered, or puts the appended record at its identifier. *)
Lemma recordWatch_keyed (e : Env) (id : string) (meta : option Msg.Meta) (db : DB) :
  keyed db →
  recordWatch e id meta db = (NoResponse, db)
  ∨ ∃ t, let existing := default (fresh id) (read (first e) id db) in
      recordWatch e id meta db =
        (Responded (RWatch true (watchCount existing + 1)),
         <[id := appended e existing t]> db).
Proof.
  intros Hk. rewrite recordWatch_spec. simpl.
  rewrite (existing_key e id db Hk).
  repeat case_match; first [by left | right; eexists; simpl; reflexivity].
Qed.

Lemma keyed_step (e : Env) (msg : option Msg.t) (db : DB) :
  keyed db → keyed (onMessage e msg db).2.
Proof.
  intros Hk.
  destruct (onMessage_cases e msg db) as [(id & meta & ->)|[-> _]]; [|done].
  fold (recordWatch e id meta db).
  destruct (recordWatch_keyed e id meta db Hk) as [->|[t ->]]; [done|].
  intros k r. simpl. rewrite lookup_insert. case_decide; [|by apply Hk].
  intros [= <-]. subst k. simpl. by apply existing_key.
Qed.

Lemma keyed_run (inputs : list (Env * option Msg.t)) (db : DB) :
  keyed db → keyed (run inputs db).2.
Proof.
  revert db. induction inputs as [|[e msg] rest IH]; intros db Hk; [done|].
  rewrite run_cons. simpl. by apply IH, keyed_step.
Qed.

Lemma keyed_empty : keyed ∅.
Proof. intros k r. by rewrite lookup_empty. Qed.

Lemma appended_inv (e : Env) (existing : WatchRecord) (t : option string) :
  watchCount existing = Z.of_nat (length (events existing)) →
  record_inv (appended e existing t).
Proof.
  intros Hc. unfold record_inv, appended. simpl.
  rewrite num_or_0, Hc, length_app. simpl. split; [lia|].
  intros _. rewrite last_lookup, length_app. simpl.
  f_equal. lia.
Qed.

(** C2: every message the listener handles leaves every stored record with
    [watchCount] equal to the length of [events], and [lastSeenAt] equal to
    the last element of [events] when there is one. *)
Theorem store_operation_preserves_inv (e : Env) (msg : option Msg.t) (db : DB) :
  store_inv db → store_inv (onMessage e msg db).2.
Proof.
  intros Hinv.
  destruct (onMessage_cases e msg db) as [(id & meta & ->)|[-> _]]; [|done].
  fold (recordWatch e id meta db). rewrite recordWatch_spec. simpl.
  repeat case_match; try done. simpl.
  intros k r. rewrite lookup_insert. case_decide; [|by apply Hinv].
  intros [= <-]. apply appended_inv.
  unfold read. destruct (request_errors (first e)); [done|].
  destruct (db !! id) as [r0|] eqn:Hr; [|done].
  by destruct (Hinv id r0 Hr).
Qed.

Lemma store_inv_empty : store_inv ∅.
Proof. intros k r. by rewrite lookup_empty. Qed.

Lemma store_operation_preserves_inv_witness :
  store_inv
    (recordWatch (at_time "2026-01-01T10:00:00.000Z") "abc123" (titled "Intro")
       ∅).2
  ∧ store_inv
      (recordWatch (at_time "2026-01-02T10:00:00.000Z") "abc123" None
         (recordWatch (at_time "2026-01-01T10:00:00.000Z") "abc123"
            (titled "Intro") ∅).2).2.
Proof.
  assert (store_inv
    (recordWatch (at_time "2026-01-01T10:00:00.000Z") "abc123" (titled "Intro")
       ∅).2) as H1.
  { apply (store_operation_preserves_inv _ _ ∅).
    intros k r Hk. rewrite lookup_empty in Hk. discriminate. }
  split; [exact H1|].
  apply (store_operation_preserves_inv
           (at_time "2026-01-02T10:00:00.000Z")
           (request "record_watch" (Some "abc123") None)). exact H1.
Defined.

(** The identifier has a record after a message exactly when it had one
    before or the message recorded a watch for it. *)
Lemma lookup_step (id : string) (e : Env) (msg : option Msg.t) (db : DB) :
  keyed db →
  (onMessage e msg db).2 !! id = None ↔
    db !! id = None
    ∧ ¬ ((∃ meta, msg = request "record_watch" (Some id) meta)
         ∧ succeeded (onMessage e msg db).1).
Proof.
  intros Hk.
  destruct (onMessage_cases e msg db) as [(id' & meta & ->)|[Heq Hns]].
  - fold (recordWatch e id' meta db).
    destruct (recordWatch_keyed e id' meta db Hk) as [->|[t ->]]; simpl.
    + split; [|by intros [? _]].
      intros Hn. split; [done|]. by intros [_ [? ?]].
    + rewrite lookup_insert. case_decide as Hid.
      * subst id'. split; [done|]. intros [_ Hn]. destruct Hn.
        split; [by eexists|by eexists].
      * split; [|by intros [? _]].
        intros Hn. split; [done|]. intros [[meta' [= Heq]] _]. done.
  - rewrite Heq. split; [|by intros [? _]].
    intros Hn. split; [done|]. by intros [_ ?].
Qed.

Lemma never_recorded_absent (id : string) (inputs : list (Env * option Msg.t))
    (db : DB) :
  keyed db → db !! id = None →
  never_recorded id inputs db ↔ (run inputs db).2 !! id = None.
Proof.
  revert db. induction inputs as [|[e msg] rest IH]; intros db Hk Hn.
  - simpl. by split.
  - rewrite run_cons. simpl.
    pose proof (lookup_step id e msg db Hk) as Hstep.
    destruct (decide ((onMessage e msg db).2 !! id = None)) as [Hd|Hd].
    + rewrite <- (IH _ (keyed_step e msg db Hk) Hd).
      apply Hstep in Hd as [_ Hd]. tauto.
    + split.
      * intros [Hnot _]. destruct Hd. apply Hstep. by split.
      * intros Hlast. destruct Hd.
        assert (∀ (ins : list (Env * option Msg.t)) (d : DB),
                  keyed d → (run ins d).2 !! id = None → d !! id = None) as Hback.
        { clear. induction ins as [|[e' msg'] ins IHins]; intros d Hkd; [done|].
          rewrite run_cons. simpl. intros Hl.
          apply IHins in Hl; [|by apply keyed_step].
          by apply (lookup_step id e' msg' d Hkd) in Hl as [? _]. }
        apply (Hback rest); [by apply keyed_step|done].
Qed.

Lemma getRecord_spec (e : Env) (id : string) (db : DB) :
  getRecord e id db =
    (if open_rejects (first e) then NoResponse
     else if request_errors (first e) then Responded RNull
     else match db !! id with
          | Some r => Responded (RRecord r)
          | None => Responded RNull
          end, db).
Proof. unfold_async. by cases. Qed.

(** C5: with the storage engine working, [getRecord] answers [null] for an
    identifier exactly when no [recordWatch] for it has succeeded since the
    store was empty; and whatever the engine does, an identifier never
    recorded gets [null] or no answer, never a record. *)
Theorem getRecord_absent_iff_never_recorded (id : string)
    (inputs : list (Env * option Msg.t)) (e : Env) :
  works (first e) →
  (never_recorded id inputs ∅ ↔
     getRecord e id (run inputs ∅).2 = (Responded RNull, (run inputs ∅).2))
  ∧ (never_recorded id inputs ∅ →
     ∀ e', (getRecord e' id (run inputs ∅).2).1 = Responded RNull
           ∨ (getRecord e' id (run inputs ∅).2).1 = NoResponse).
Proof.
  intros [Ho Hr].
  pose proof (never_recorded_absent id inputs ∅ keyed_empty (lookup_empty id)) as Hiff.
  split.
  - rewrite Hiff, getRecord_spec, Ho, Hr.
    destruct ((run inputs ∅).2 !! id); split; intros; simplify_eq; done.
  - intros Hn e'. apply Hiff in Hn. rewrite getRecord_spec, Hn. simpl.
    repeat case_match; auto.
Qed.

Lemma getRecord_absent_iff_never_recorded_witness :
  getRecord (at_time "2026-01-03T10:00:00.000Z") "zzz999"
    (run [(at_time "2026-01-01T10:00:00.000Z",
           request "record_watch" (Some "abc123") (titled "Intro"))] ∅).2
  = (Responded RNull,
     (run [(at_time "2026-01-01T10:00:00.000Z",
            request "record_watch" (Some "abc123") (titled "Intro"))] ∅).2).
Proof.
  apply (getRecord_absent_iff_never_recorded "zzz999"
           [(at_time "2026-01-01T10:00:00.000Z",
             request "record_watch" (Some "abc123") (titled "Intro"))]
           (at_time "2026-01-03T10:00:00.000Z")).
  - split; reflexivity.
  - simpl. split; [|exact I].
    intros [[meta Hm] _]. discriminate Hm.
Defined.



(** The call is answered when nothing fails and a title can be found. *)
Lemma recordWatch_answered (e : Env) (id : string) (meta : option Msg.Meta)
    (db : DB) :
  no_faults e → keyed db →
  truthy (meta_title meta) = true
  ∨ (∃ r, db !! id = Some r ∧ truthy (title r) = true) →
  succeeded (recordWatch e id meta db).1.
Proof.
  intros [[Ho1 Hr1] [Ho2 Hr2]] Hk Ht. rewrite recordWatch_spec. simpl.
  rewrite (existing_key e id db Hk), Ho1, Ho2, Hr2.
  unfold new_title, ret, throw, read. simpl. fold (meta_title meta). rewrite Hr1.
  destruct Ht as [->|(r & -> & Ht)]; simpl; [by eexists|].
  rewrite Ht. destruct (truthy (meta_title meta)); by eexists.
Qed.

(** The cursor visits the stored records, each once. *)
Lemma cursor_records (db : DB) (r : WatchRecord) :
  r ∈ cursor db ↔ ∃ k, db !! k = Some r.
Proof.
  unfold cursor. rewrite list_elem_of_fmap. split.
  - intros ([k r'] & -> & Hin). exists k.
    rewrite merge_sort_Permutation in Hin. by apply elem_of_map_to_list.
  - intros [k Hk]. exists (k, r). split; [done|].
    rewrite merge_sort_Permutation. by apply elem_of_map_to_list.
Qed.

Lemma listRecords_spec (e : Env) (db : DB) :
  listRecords e db =
    (if open_rejects (first e) then NoResponse
     else if request_errors (first e) then Responded (RList [])
     else Responded (RList (cursor db)), db).
Proof. unfold_async. by cases. Qed.

Lemma exportSnapshot_spec (e : Env) (db : DB) :
  exportSnapshot e db =
    (if open_rejects (first e) then NoResponse
     else if request_errors (first e) then Responded (RJson (stringify_all []))
     else Responded (RJson (stringify_all (cursor db))), db).
Proof. unfold_async. by cases. Qed.

(** C7, as the code has it: a failed open leaves any of the four requests
    unanswered, and so does a failed put; a failed read of [get_video] is
    answered with [null]; a failed cursor is answered with the empty list,
    or its JSON text, which is what an empty store answers.  The store is
    unchanged in all these cases. *)
Theorem storage_failure_surfaces (e : Env) (id : string)
    (meta : option Msg.Meta) (db : DB) :
  getRecord e id db =
    (if open_rejects (first e) then NoResponse
     else if request_errors (first e) then Responded RNull
     else match db !! id with
          | Some r => Responded (RRecord r)
          | None => Responded RNull
          end, db)
  ∧ listRecords e db =
      (if open_rejects (first e) then NoResponse
       else if request_errors (first e) then Responded (RList [])
       else Responded (RList (cursor db)), db)
  ∧ exportSnapshot e db =
      (if open_rejects (first e) then NoResponse
       else if request_errors (first e) then Responded (RJson "[]")
       else Responded (RJson (stringify_all (cursor db))), db)
  ∧ (open_rejects (first e) || open_rejects (second e)
       || request_errors (second e) = true →
     recordWatch e id meta db = (NoResponse, db)).
Proof.
  split; [apply getRecord_spec|].
  split; [apply listRecords_spec|].
  split; [apply exportSnapshot_spec|].
  rewrite recordWatch_spec. simpl.
  destruct (open_rejects (first e)); [done|].
  destruct (open_rejects (second e)), (request_errors (second e)); simpl;
    try discriminate; intros _; repeat case_match; done.
Qed.

(** C7 as the specification words it fails: with a record in the store, a
    cursor that fails is answered with the empty list, the very answer of an
    empty store whose cursor works. *)
Lemma cursor_failure_reports_empty :
  let failing := {| now := "2026-01-02T10:00:00.000Z"; document := None;
                    first := {| open_rejects := false; request_errors := true |};
                    second := working |} in
  let db : DB := {[ "abc123" := appended (at_time "2026-01-01T10:00:00.000Z")
                                  (fresh "abc123") (Some "Intro") ]} in
  first_call_fails failing
  ∧ (listRecords failing db).1 = Responded (RList [])
  ∧ (listRecords (at_time "2026-01-02T10:00:00.000Z") ∅).1 = Responded (RList [])
  ∧ (listRecords failing db).1 ≠ Responded RNull
  ∧ ¬ (∀ (e : Env) (msg : option Msg.t) (d : DB) (r : response),
         first_call_fails e → (onMessage e msg d).1 = Responded r → r = RNull).
Proof.
  intros failing db.
  assert ((listRecords failing db).1 = Responded (RList [])) as Hl
    by (by rewrite listRecords_spec).
  split; [by right|]. split; [done|]. split; [by rewrite listRecords_spec|].
  split; [by rewrite Hl|].
  intros Hall.
  specialize (Hall failing (request "get_all_videos" None None) db (RList [])).
  discriminate Hall; [by right|exact Hl].
Qed.

Lemma counted_cons (from : Z) (c : Env * option Msg.Meta)
    (calls : list (Env * option Msg.Meta)) :
  counted from (c :: calls) = Responded (RWatch true (from + 1)) :: counted (from + 1) calls.
Proof.
  unfold counted. simpl. f_equal. apply imap_ext. intros i x _. simpl.
  do 2 f_equal. lia.
Qed.

(** A chain of answered calls counts on from the record it starts from and
    appends its clock readings to that record's events. *)
Lemma chain_counts (id : string) (calls : list (Env * option Msg.Meta)) (db : DB) :
  keyed db →
  chained id calls db →
  Forall succeeded (run (calls_for id calls) db).1 →
  (run (calls_for id calls) db).1
    = counted (from_option watchCount 0 (db !! id)) calls
  ∧ (calls ≠ [] →
     ∃ r, (run (calls_for id calls) db).2 !! id = Some r
          ∧ watchCount r
              = from_option watchCount 0 (db !! id) + Z.of_nat (length calls)
          ∧ events r = from_option events [] (db !! id) ++ readings calls).
Proof.
  revert db. induction calls as [|[e meta] rest IH]; intros db Hk Hch Hok.
  - split; [done|]. by intros [].
  - unfold calls_for in *. rewrite fmap_cons, run_cons in *. simpl in *.
    fold (recordWatch e id meta db) in *.
    destruct Hch as [Hread Hch]. apply Forall_cons in Hok as [Hs Hok].
    destruct (recordWatch_keyed e id meta db Hk) as [Hno|[t Hyes]].
    { rewrite Hno in Hs. by destruct Hs. }
    simpl in Hyes. rewrite Hread in Hyes.
    assert (keyed (recordWatch e id meta db).2) as Hk'
      by apply (keyed_step e _ db Hk).
    destruct (IH _ Hk' Hch Hok) as [IHo IHr]. clear IH.
    rewrite Hyes in *. simpl in *. rewrite lookup_insert_eq in *. simpl in *.
    rewrite num_or_0 in *.
    assert (watchCount (default (fresh id) (db !! id))
            = from_option watchCount 0 (db !! id)) as Hc by (by destruct (db !! id)).
    assert (events (default (fresh id) (db !! id))
            = from_option events [] (db !! id)) as He by (by destruct (db !! id)).
    rewrite Hc, He in *. split.
    + rewrite counted_cons. by f_equal.
    + intros _. destruct rest as [|c rest].
      * simpl. rewrite lookup_insert_eq. eexists. split; [done|]. simpl.
        rewrite num_or_0, Hc, He. split; [lia|done].
      * destruct IHr as (r & Hr & Hcount & Hev); [done|].
        exists r. split; [done|]. rewrite Hcount, Hev. split.
        -- simpl length. lia.
        -- unfold readings. rewrite !fmap_cons. by rewrite <- app_assoc.
Qed.

(** The counting half of C1 holds whatever the clock does. *)
Lemma recordWatch_counts (id : string) (calls : list (Env * option Msg.Meta))
    (db : DB) :
  calls ≠ [] →
  keyed db →
  db !! id = None →
  chained id calls db →
  Forall succeeded (run (calls_for id calls) db).1 →
  counts_calls id calls db.
Proof.
  intros Hne Hk Hnone Hch Hok.
  destruct (chain_counts id calls db Hk Hch Hok) as [Ho Hr].
  rewrite Hnone in *. simpl in *. split; [done|].
  intros e [Hopen Hreq].
  destruct (Hr Hne) as (r & Hl & Hc & He).
  exists r. rewrite getRecord_spec, Hopen, Hreq, Hl. split; [done|].
  split; [lia|]. rewrite He. unfold readings. by rewrite length_fmap.
Qed.

(** C1, as the code has it: N answered calls for one identifier, the first
    starting from no record and each later one from the record the call
    before it put, are answered with the counts 1 to N; afterwards the
    record has [watchCount] N and the N clock readings of the calls as its
    [events], in the order of the calls.  The events are in chronological
    order when the clock readings of the calls are. *)
Theorem recordWatch_counts_in_order (id : string)
    (calls : list (Env * option Msg.Meta)) (db : DB) :
  calls ≠ [] →
  keyed db →
  db !! id = None →
  chained id calls db →
  Forall succeeded (run (calls_for id calls) db).1 →
  chronological (readings calls) →
  counts_calls id calls db
  ∧ ∀ e r, works (first e) →
      (getRecord e id (run (calls_for id calls) db).2).1 = Responded (RRecord r) →
      chronological (events r).
Proof.
  intros Hne Hk Hnone Hch Hok Hsorted.
  pose proof (recordWatch_counts id calls db Hne Hk Hnone Hch Hok) as Hcounts.
  split; [done|].
  intros e r Hw Hget. destruct Hcounts as [_ Hrec].
  destruct (Hrec e Hw) as (r' & Hget' & _ & _ & Hev).
  rewrite Hget' in Hget. simpl in Hget. injection Hget as <-.
  by rewrite Hev.
Qed.

Lemma recordWatch_counts_in_order_witness :
  let calls := [(at_time "2026-01-01T10:00:00.000Z", titled "Intro");
                (at_time "2026-01-02T10:00:00.000Z", None)] in
  counts_calls "abc123" calls ∅
  ∧ ∀ e r, works (first e) →
      (getRecord e "abc123" (run (calls_for "abc123" calls) ∅).2).1
        = Responded (RRecord r) →
      chronological (events r).
Proof.
  intros calls.
  apply (recordWatch_counts_in_order "abc123" calls ∅).
  - discriminate.
  - intros k r Hk. rewrite lookup_empty in Hk. discriminate.
  - reflexivity.
  - simpl. repeat split; reflexivity.
  - repeat constructor; eexists; reflexivity.
  - repeat constructor.
Defined.

(** C1 as the specification words it fails: two answered calls, the second
    starting from the record of the first, with the clock set back a day in
    between, leave events that are not in chronological order. *)
Lemma clock_set_back_breaks_order :
  let calls := [(at_time "2026-01-02T10:00:00.000Z", titled "Intro");
                (at_time "2026-01-01T10:00:00.000Z", None)] in
  calls ≠ []
  ∧ keyed ∅
  ∧ (∅ : DB) !! "abc123" = None
  ∧ chained "abc123" calls ∅
  ∧ Forall succeeded (run (calls_for "abc123" calls) ∅).1
  ∧ ∃ r, getRecord (at_time "2026-01-03T10:00:00.000Z") "abc123"
           (run (calls_for "abc123" calls) ∅).2
           = (Responded (RRecord r), (run (calls_for "abc123" calls) ∅).2)
         ∧ watchCount r = 2
         ∧ events r = ["2026-01-02T10:00:00.000Z"; "2026-01-01T10:00:00.000Z"]
         ∧ ¬ chronological (events r).
Proof.
  intros calls.
  split; [discriminate|]. split; [apply keyed_empty|]. split; [reflexivity|].
  split; [simpl; repeat split; reflexivity|].
  split; [repeat constructor; eexists; reflexivity|].
  eexists. split; [reflexivity|]. split; [reflexivity|]. split; [reflexivity|].
  simpl. intros Hs. apply Sorted_inv in Hs as [_ Hhd].
  apply HdRel_inv in Hhd. vm_compute in Hhd. exact Hhd.
Qed.

Lemma triple_of_toJSON (r : WatchRecord) :
  triple_of_json (toJSON r) = Some (triple r).
Proof.
  destruct r as [vid count evs t seen]. unfold triple_of_json, toJSON, triple.
  assert (mapM as_string (JSON.Str <$> evs) = Some evs) as Hevs
    by (by apply mapM_fmap_Some).
  destruct vid, t, seen; simpl; by rewrite Hevs.
Qed.

Lemma triples_of_stringify_all (all : list WatchRecord) :
  triples_of_text (stringify_all all) = Some (triple <$> all).
Proof.
  unfold triples_of_text, stringify_all. rewrite parse_stringify.
  apply mapM_Some. apply Forall2_fmap. apply Forall_Forall2_diag.
  apply Forall_forall. intros r _. apply triple_of_toJSON.
Qed.

(** C9: whatever the store holds and whatever the storage engine does, the
    text [export_json] answers with parses to the triples (itemId,
    watchCount, events) of the records [get_all_videos] answers with, in
    the same order; and the one is answered exactly when the other is. *)
Theorem export_parses_to_list (e : Env) (db : DB) :
  match (exportSnapshot e db).1, (listRecords e db).1 with
  | Responded (RJson json), Responded (RList all) =>
      triples_of_text json = Some (triple <$> all)
  | NoResponse, NoResponse => True
  | _, _ => False
  end.
Proof.
  rewrite exportSnapshot_spec, listRecords_spec. simpl.
  destruct (open_rejects (first e)); [done|].
  destruct (request_errors (first e)); apply triples_of_stringify_all.
Qed.

(** An export of two records, read back. *)
Example export_two_records :
  let db := (run [(at_time "2026-01-01T10:00:00.000Z",
                   request "record_watch" (Some "abc123") (titled "Intro"));
                  (at_time "2026-01-02T11:00:00.000Z",
                   request "record_watch" (Some "xyz789") (titled "Outro"));
                  (at_time "2026-01-03T12:00:00.000Z",
                   request "record_watch" (Some "abc123") None)] ∅).2 in
  match (exportSnapshot (at_time "2026-01-04T09:00:00.000Z") db).1 with
  | Responded (RJson json) =>
      triples_of_text json
      = Some [(Some "abc123", 2,
               ["2026-01-01T10:00:00.000Z"; "2026-01-03T12:00:00.000Z"]);
              (Some "xyz789", 1, ["2026-01-02T11:00:00.000Z"])]
  | _ => False
  end.
Proof. vm_compute. reflexivity. Qed.

End StoreFacts.

(** * Properties of the detector *)

Section DetectorFacts.
Import ContentScript.

Lemma recorded_app (vid : string) (out out' : list Msg.t) :
  recorded vid (out ++ out') = (recorded vid out + recorded vid out')%nat.
Proof. unfold recorded. by rewrite List.filter_app, length_app. Qed.

Lemma recorded_mark (vid vid' : string) (p : Page) (st : State) :
  recorded vid (mark vid' p st).2 = if decide (vid' = vid) then 1%nat else 0%nat.
Proof.
  unfold recorded, mark, is_record_watch. simpl.
  destruct (decide (vid' = vid)) as [->|Hne].
  - by rewrite bool_decide_eq_true_2.
  - rewrite bool_decide_eq_false_2; [done|]. intros [_ [= ?]]. done.
Qed.

Lemma of_Z_0 : of_Z 0 = SpecFloat.S754_zero false.
Proof. reflexivity. Qed.

(** The threshold test of [timeupdate], in the words of the specification. *)
Lemma threshold_test (vd : Video) :
  valid_duration (duration vd) →
  negb (negb (to_boolean (or_zero (duration vd)))
        || is_Infinity (or_zero (duration vd)))
  && ge (mul (div (currentTime vd) (or_zero (duration vd))) (of_Z 100))
        THRESHOLD_PERCENT
  = true ↔ reaches_threshold vd.
Proof.
  unfold reaches_threshold, valid_duration, or_zero, lt. rewrite of_Z_0.
  destruct (duration vd) as [s|[]| |[] m e]; cbn [to_boolean is_Infinity
    is_finite negb orb andb SpecFloat.SFltb SpecFloat.SFcompare];
    try discriminate; intros _.
  - split; [done|]. by intros (_ & ? & _).
  - split; [done|]. by intros (? & _).
  - split; [done|]. by intros (? & _).
  - split; [by intros ->|]. by intros (_ & _ & ->).
Qed.

Lemma timeupdate_spec (p : Page) (vd : Video) (st : State) (vid : string) :
  getVideoId p = Some vid → vid ≠ "" →
  valid_duration (duration vd) →
  (reaches_threshold vd ∧ (vid ∉ sessionMarked st)
   ∧ timeupdate p vd st = mark vid p st)
  ∨ (¬ (reaches_threshold vd ∧ vid ∉ sessionMarked st)
     ∧ timeupdate p vd st = (st, [])).
Proof.
  intros Hvid Hne Hvalid. unfold timeupdate. rewrite Hvid.
  destruct (String.eqb_spec vid "") as [|_]; [done|].
  pose proof (threshold_test vd Hvalid) as Ht.
  destruct (negb (to_boolean (or_zero (duration vd)))
            || is_Infinity (or_zero (duration vd))); simpl in Ht.
  { right. split; [|done]. intros [Hr _]. by apply Ht in Hr. }
  destruct (ge _ THRESHOLD_PERCENT); simpl.
  - destruct (decide (vid ∈ sessionMarked st)) as [Hin|Hout].
    + rewrite bool_decide_eq_true_2 by done. right. split; [|done].
      by intros [_ ?].
    + rewrite bool_decide_eq_false_2 by done. left. split; [by apply Ht|done].
  - right. split; [|done]. intros [Hr _]. by apply Ht in Hr.
Qed.



(** The test is the one the numbers give.  The number nearest to 0.7 is
    below seven tenths, yet times 100 it rounds to 70: with that position in
    a video of one second the listener sends its message. *)
Example threshold_is_tested_in_doubles :
  let vd := {| currentTime := div (of_Z 7) (of_Z 10); duration := of_Z 1 |} in
  recorded "abc123"
    (timeupdate (watch_page "abc123") vd (init (watch_page "abc123"))).2 = 1%nat
  ∧ reaches_threshold vd
  ∧ (to_Q (currentTime vd) / to_Q (duration vd) * 100 < 70)%Q.
Proof. vm_compute. repeat split; reflexivity. Qed.

Lemma ended_spec (p : Page) (st : State) :
  ended p st = (st, [])
  ∨ ∃ vid, (vid ∉ sessionMarked st) ∧ ended p st = mark vid p st.
Proof.
  unfold ended. destruct (getVideoId p) as [vid|]; [|by left].
  destruct (String.eqb vid ""); [by left|].
  case_bool_decide; [by left|]. right. by exists vid.
Qed.

Lemma timeupdate_cases (p : Page) (vd : Video) (st : State) :
  timeupdate p vd st = (st, [])
  ∨ ∃ vid, (vid ∉ sessionMarked st) ∧ timeupdate p vd st = mark vid p st.
Proof.
  unfold timeupdate. destruct (getVideoId p) as [vid|]; [|by left].
  destruct (String.eqb vid ""); [by left|].
  destruct (negb _ || _); [by left|].
  destruct (ge _ _); simpl; [|by left].
  case_bool_decide; simpl; [by left|]. right. by exists vid.
Qed.

Lemma recorded_insertButton (vid : string) (p : Page) :
  recorded vid (insertButtonIfMissing p) = 0%nat.
Proof.
  unfold insertButtonIfMissing. destruct (menu p), (button p); try done.
Qed.

(** One step inside a session: the session set only grows, and a
    [record_watch] for an identifier is sent at most once, only when the
    identifier was not in the set, and puts it there. *)
Lemma step_session (vid : string) (ev : event) (st : State) :
  navigates ev st = false →
  sessionMarked st ⊆ sessionMarked (step ev st).1
  ∧ (recorded vid (step ev st).2 = 0%nat
     ∨ (recorded vid (step ev st).2 = 1%nat
        ∧ (vid ∉ sessionMarked st)
        ∧ vid ∈ sessionMarked (step ev st).1)).
Proof.
  intros Hnav. destruct ev as [p|p|p|el p|el p vd]; simpl in *.
  - unfold hrefObserver. rewrite Hnav. split; [done|by left].
  - unfold timeout. destruct (timers st); [split; [done|by left]|]. simpl.
    split; [|left; apply recorded_insertButton].
    unfold attachVideoListeners. simpl.
    destruct (video p); [|done]. by case_bool_decide.
  - split; [done|]. left. unfold onClick.
    destruct (getVideoId p) as [vid'|]; [|done]. by destruct (String.eqb vid' "").
  - case_bool_decide; [|split; [done|by left]].
    destruct (ended_spec p st) as [->|(vid' & Hout & ->)];
      [split; [done|by left]|].
    split; [simpl; set_solver|]. rewrite recorded_mark.
    case_decide; [subst; right|by left].
    split; [done|]. split; [done|]. simpl. set_solver.
  - case_bool_decide; [|split; [done|by left]].
    destruct (timeupdate_cases p vd st) as [->|(vid' & Hout & ->)];
      [split; [done|by left]|].
    split; [simpl; set_solver|]. rewrite recorded_mark.
    case_decide; [subst; right|by left].
    split; [done|]. split; [done|]. simpl. set_solver.
Qed.

Lemma detector_run_cons (ev : event) (evs : list event) (st : State) :
  run (ev :: evs) st =
    ((run evs (step ev st).1).1, (step ev st).2 ++ (run evs (step ev st).1).2).
Proof.
  simpl. destruct (step ev st) as [st1 out]. simpl.
  destruct (run evs st1). reflexivity.
Qed.

(** C3: in one session, once an identifier is in [sessionMarked] no event
    sends a [record_watch] for it, and from any state at most one
    [record_watch] is sent for an identifier, whatever position updates and
    ended signals follow. *)
Theorem one_record_per_session (vid : string) (evs : list event) (st : State) :
  one_session evs st →
  (vid ∈ sessionMarked st → recorded vid (run evs st).2 = 0%nat)
  ∧ (recorded vid (run evs st).2 ≤ 1)%nat.
Proof.
  revert st. induction evs as [|ev evs IH]; intros st Hs.
  - simpl. split; [done|]. unfold recorded. simpl. lia.
  - destruct Hs as [Hnav Hs]. rewrite detector_run_cons. simpl.
    rewrite recorded_app.
    destruct (step_session vid ev st Hnav) as [Hsub Hrec].
    destruct (IH _ Hs) as [IHin IHle].
    destruct Hrec as [H0|(H1 & Hout & Hin)].
    + rewrite H0. split; [|lia]. intros Hm. rewrite IHin; [done|].
      by apply Hsub.
    + rewrite H1, (IHin Hin). split; [done|lia].
Qed.

Lemma one_record_per_session_witness :
  let st := (timeout (watch_page "abc123") (init (watch_page "abc123"))).1 in
  let evs := [TimeUpdate 1 (watch_page "abc123") (at_position 50 100);
              TimeUpdate 1 (watch_page "abc123") (at_position 71 100);
              TimeUpdate 1 (watch_page "abc123") (at_position 90 100);
              Ended 1 (watch_page "abc123")] in
  ("abc123" ∈ sessionMarked st → recorded "abc123" (run evs st).2 = 0%nat)
  ∧ (recorded "abc123" (run evs st).2 ≤ 1)%nat.
Proof.
  intros st evs.
  apply (one_record_per_session "abc123" evs st).
  simpl. repeat split; reflexivity.
Defined.

(** The run of the witness does send its one message. *)
Example four_signals_one_record :
  recorded "abc123"
    (run [TimeUpdate 1 (watch_page "abc123") (at_position 50 100);
          TimeUpdate 1 (watch_page "abc123") (at_position 71 100);
          TimeUpdate 1 (watch_page "abc123") (at_position 90 100);
          Ended 1 (watch_page "abc123")]
       (timeout (watch_page "abc123") (init (watch_page "abc123"))).1).2
  = 1%nat.
Proof. vm_compute. reflexivity. Qed.

(** C6: a mutation that shows a changed address empties [sessionMarked];
    so a position update that reaches the threshold after it sends
    [record_watch] for the page's identifier, also when that identifier had
    been recorded in the session before, while the same update without the
    navigation sends nothing for it. *)
Theorem navigation_starts_new_session (st : State) (p p' : Page) (el : nat)
    (vd : Video) (vid : string) :
  href (location p) ≠ lastHref st →
  el ∈ attached st →
  getVideoId p' = Some vid → vid ≠ "" →
  reaches_threshold vd →
  vid ∈ sessionMarked st →
  sessionMarked (hrefObserver p st) = ∅
  ∧ recorded vid (run [Mutation p; TimeUpdate el p' vd] st).2 = 1%nat
  ∧ recorded vid (run [TimeUpdate el p' vd] st).2 = 0%nat.
Proof.
  intros Hhref Hel Hvid Hne Hreach Hmarked.
  assert (valid_duration (duration vd)) as Hvalid.
  { destruct Hreach as (_ & Hpos & _). unfold valid_duration, lt in *.
    rewrite of_Z_0 in *. by destruct (duration vd) as [|[]| |[]]. }
  assert (hrefObserver p st =
            {| sessionMarked := ∅; lastHref := href (location p);
               timers := S (timers st); attached := attached st |}) as Hnav.
  { unfold hrefObserver. by rewrite bool_decide_eq_true_2. }
  split; [by rewrite Hnav|]. split.
  - rewrite !detector_run_cons. simpl. rewrite Hnav. simpl.
    rewrite bool_decide_eq_true_2 by done.
    rewrite app_nil_r.
    destruct (timeupdate_spec p' vd
                {| sessionMarked := ∅; lastHref := href (location p);
                   timers := S (timers st); attached := attached st |}
                vid Hvid Hne Hvalid) as [(_ & _ & ->)|[Hn ->]].
    + rewrite recorded_mark. by rewrite decide_True.
    + destruct Hn. split; [done|]. simpl. set_solver.
  - rewrite detector_run_cons. simpl.
    rewrite bool_decide_eq_true_2 by done.
    rewrite app_nil_r.
    destruct (timeupdate_spec p' vd st vid Hvid Hne Hvalid)
      as [(_ & Hout & _)|[_ ->]]; [by destruct Hout|done].
Qed.

Lemma navigation_starts_new_session_witness :
  let st := (run [Timeout (watch_page "abc123");
                  TimeUpdate 1 (watch_page "abc123") (at_position 71 100)]
               (init (watch_page "abc123"))).1 in
  sessionMarked (hrefObserver (watch_page "xyz789") st) = ∅
  ∧ recorded "abc123"
      (run [Mutation (watch_page "xyz789");
            TimeUpdate 1 (watch_page "abc123") (at_position 80 100)] st).2
    = 1%nat
  ∧ recorded "abc123"
      (run [TimeUpdate 1 (watch_page "abc123") (at_position 80 100)] st).2
    = 0%nat.
Proof.
  intros st.
  apply (navigation_starts_new_session st (watch_page "xyz789")
           (watch_page "abc123") 1 (at_position 80 100) "abc123").
  - discriminate.
  - vm_compute. set_solver.
  - reflexivity.
  - discriminate.
  - repeat split; vm_compute; reflexivity.
  - vm_compute. set_solver.
Defined.

(** The scenario of section 8 of the specification, through both scripts:
    50 percent sends nothing, 71 percent records watch 1, [ended] records
    nothing more; after going to another video and back, 80 percent records
    watch 2. *)
Example scenario_abc123 :
  let page := watch_page "abc123" in
  let visit1 := [Timeout page; TimeUpdate 1 page (at_position 50 100);
                 TimeUpdate 1 page (at_position 71 100); Ended 1 page] in
  let visit2 := [Mutation (watch_page "xyz789"); Mutation page; Timeout page;
                 TimeUpdate 1 page (at_position 80 100)] in
  let '(st1, sent1) := run visit1 (init page) in
  let '(_, sent2) := run visit2 st1 in
  let '(answers, db) :=
    ServiceWorker.run
      (Extension.deliver "2026-01-01T10:00:00.000Z" sent1
       ++ Extension.deliver "2026-01-05T18:30:00.000Z" sent2) ∅ in
  recorded "abc123" sent1 = 1%nat
  ∧ recorded "abc123" sent2 = 1%nat
  ∧ answers !! 0%nat = Some (ServiceWorker.Responded (ServiceWorker.RWatch true 1))
  ∧ answers !! 2%nat = Some (ServiceWorker.Responded (ServiceWorker.RWatch true 2))
  ∧ ServiceWorker.events <$> db !! "abc123"
    = Some ["2026-01-01T10:00:00.000Z"; "2026-01-05T18:30:00.000Z"].
Proof. vm_compute. repeat split; reflexivity. Qed.

End DetectorFacts.


(** * More on the store: what a write does and what it keeps *)

Section StoreWrites.
Import ServiceWorker Store Trace.

Lemma is_success_succeeded (o : outcome) : is_success o = true ↔ succeeded o.
Proof.
  split.
  - destruct o as [[| |[] n| |]|]; try discriminate. intros _. by exists n.
  - by intros [n ->].
Qed.

Lemma asks_record_request (id : string) (msg : option Msg.t) :
  asks_record id msg = true ↔ ∃ meta, msg = request "record_watch" (Some id) meta.
Proof.
  unfold asks_record, request. split.
  - destruct msg as [[ty vid mt]|]; [|done].
    intros [Hty Hvid]%bool_decide_eq_true. simpl in *. subst. by exists mt.
  - intros [meta ->]. by apply bool_decide_eq_true.
Qed.

Lemma appended_last (e : Env) (existing : WatchRecord) (t : option string) :
  lastSeenAt (appended e existing t) = Some (now e)
  ∧ last (events (appended e existing t)) = Some (now e).
Proof.
  unfold appended. simpl. split; [|apply last_snoc].
  apply list_lookup_middle. rewrite length_app. simpl. lia.
Qed.

(** X1: a watch that was recorded is read back: after [record_watch] was
    answered with the count n, [getVideo] of [db.js] with a working storage
    engine gets the record of that identifier, with [watchCount] n and the
    clock reading of the recording as its last event and as [lastSeenAt];
    the records of all other identifiers are as they were. *)
Theorem recorded_watch_is_read_back (e e' : Env) (id : string)
    (meta : option Msg.Meta) (db : DB) (n : Z) :
  keyed db →
  works (first e') →
  (recordWatch e id meta db).1 = Responded (RWatch true n) →
  (∃ r, onMessage e' (Some (SharedDb.getVideo (Some id)))
          (recordWatch e id meta db).2
        = (Responded (RRecord r), (recordWatch e id meta db).2)
        ∧ videoId r = Some id
        ∧ watchCount r = n
        ∧ last (events r) = Some (now e)
        ∧ lastSeenAt r = Some (now e))
  ∧ ∀ id', id' ≠ id → (recordWatch e id meta db).2 !! id' = db !! id'.
Proof.
  intros Hk [Ho Hr] Hans.
  destruct (recordWatch_keyed e id meta db Hk) as [Hno|[t Hyes]].
  { rewrite Hno in Hans. discriminate. }
  simpl in Hyes. rewrite Hyes in *. simpl in *. injection Hans as <-.
  split.
  - pose proof (getRecord_spec e' id
        (<[id:=appended e (default (fresh id) (read (first e) id db)) t]> db))
      as Hget.
    unfold getRecord, request in Hget. unfold SharedDb.getVideo.
    rewrite Hget, Ho, Hr, lookup_insert_eq. eexists. split; [done|].
    destruct (appended_last e (default (fresh id) (read (first e) id db)) t)
      as [Hseen Hlast].
    split; [by apply existing_key|]. split; [|done].
    simpl. by rewrite num_or_0.
  - intros id' Hne. by rewrite lookup_insert_ne.
Qed.

Lemma recorded_watch_is_read_back_witness :
  (∃ r, onMessage (at_time "2026-01-02T10:00:00.000Z")
          (Some (SharedDb.getVideo (Some "abc123")))
          (recordWatch (at_time "2026-01-01T10:00:00.000Z") "abc123"
             (titled "Intro") ∅).2
        = (Responded (RRecord r),
           (recordWatch (at_time "2026-01-01T10:00:00.000Z") "abc123"
              (titled "Intro") ∅).2)
        ∧ videoId r = Some "abc123"
        ∧ watchCount r = 1
        ∧ last (events r) = Some "2026-01-01T10:00:00.000Z"
        ∧ lastSeenAt r = Some "2026-01-01T10:00:00.000Z")
  ∧ ∀ id', id' ≠ "abc123" →
      (recordWatch (at_time "2026-01-01T10:00:00.000Z") "abc123"
         (titled "Intro") ∅).2 !! id' = (∅ : DB) !! id'.
Proof.
  apply (recorded_watch_is_read_back
           (at_time "2026-01-01T10:00:00.000Z")
           (at_time "2026-01-02T10:00:00.000Z") "abc123" (titled "Intro") ∅ 1).
  - intros k r Hk. rewrite lookup_empty in Hk. discriminate.
  - split; reflexivity.
  - reflexivity.
Defined.

(** X2: the store changes only together with the answer [{success: true}]:
    a message that is answered otherwise, or not at all, leaves the store
    as it was; and no message removes a key. *)
Theorem store_changes_only_on_success (e : Env) (msg : option Msg.t) (db : DB) :
  ((onMessage e msg db).2 = db ∨ is_success (onMessage e msg db).1 = true)
  ∧ dom db ⊆ dom (onMessage e msg db).2.
Proof.
  destruct (onMessage_cases e msg db) as [(id & meta & ->)|[Heq _]].
  - fold (recordWatch e id meta db). rewrite recordWatch_spec. simpl.
    repeat case_match; simpl; try (split; [by left|done]).
    split; [by right|]. rewrite dom_insert_L. set_solver.
  - rewrite Heq. split; [by left|done].
Qed.

(** X4: a read that fails costs the history: when [getVideo] inside
    [record_watch] gets an error, the title of [meta] is not empty and the
    put works, the record of the identifier is replaced by a record of this
    one watch, and the answer is the count 1, whatever the store held. *)
Theorem failed_read_restarts_record (e : Env) (id : string)
    (meta : option Msg.Meta) (db : DB) :
  open_rejects (first e) = false →
  request_errors (first e) = true →
  works (second e) →
  truthy (meta_title meta) = true →
  recordWatch e id meta db
  = (Responded (RWatch true 1),
     <[id := {| videoId := Some id; watchCount := 1; events := [now e];
                title := meta_title meta; lastSeenAt := Some (now e) |}]> db).
Proof.
  intros Ho Hr [Ho2 Hr2] Ht. rewrite recordWatch_spec. simpl.
  unfold read, new_title, ret. simpl. fold (meta_title meta).
  by rewrite Ho, Hr, Ht, Ho2, Hr2.
Qed.

Lemma failed_read_restarts_record_witness :
  let e := {| now := "2026-01-03T10:00:00.000Z"; document := None;
              first := {| open_rejects := false; request_errors := true |};
              second := working |} in
  let db : DB :=
    {[ "abc123" := {| videoId := Some "abc123"; watchCount := 2;
                      events := ["2026-01-01T10:00:00.000Z";
                                 "2026-01-02T10:00:00.000Z"];
                      title := Some "Intro";
                      lastSeenAt := Some "2026-01-02T10:00:00.000Z" |} ]} in
  recordWatch e "abc123" (titled "Intro") db
  = (Responded (RWatch true 1),
     <["abc123" := {| videoId := Some "abc123"; watchCount := 1;
                      events := ["2026-01-03T10:00:00.000Z"];
                      title := Some "Intro";
                      lastSeenAt := Some "2026-01-03T10:00:00.000Z" |}]> db).
Proof.
  intros e db.
  apply (failed_read_restarts_record e "abc123" (titled "Intro") db).
  - reflexivity.
  - reflexivity.
  - split; reflexivity.
  - reflexivity.
Defined.

(** X5: in the service worker the first watch of a video is lost when no
    title comes with it: with no record for the identifier and an absent
    or empty title in [meta], reading [document.title] throws, nothing is
    stored and the message is not answered, whatever the storage engine
    does. *)
Theorem untitled_first_watch_is_lost (e : Env) (id : string)
    (meta : option Msg.Meta) (db : DB) :
  document e = None →
  db !! id = None →
  truthy (meta_title meta) = false →
  recordWatch e id meta db = (NoResponse, db).
Proof.
  intros Hdoc Hnone Ht. rewrite recordWatch_spec. simpl.
  unfold read, new_title, ret, throw. simpl. fold (meta_title meta).
  rewrite Hnone, Ht, Hdoc.
  destruct (open_rejects (first e)); [done|].
  by destruct (request_errors (first e)).
Qed.

Lemma untitled_first_watch_is_lost_witness :
  recordWatch (at_time "2026-01-01T10:00:00.000Z") "abc123"
    (Some {| Msg.title := Some "" |}) ∅
  = (NoResponse, ∅).
Proof.
  apply (untitled_first_watch_is_lost (at_time "2026-01-01T10:00:00.000Z")
           "abc123" (Some {| Msg.title := Some "" |}) ∅).
  - reflexivity.
  - reflexivity.
  - reflexivity.
Defined.

(** The title [record_watch] finds in the service worker is not empty. *)
Lemma new_title_truthy (e : Env) (m : Msg.t) (existing : WatchRecord)
    (db : DB) (t : option string) :
  document e = None →
  (new_title e m existing db).1 = Resolved t → truthy t = true.
Proof.
  intros Hdoc. unfold new_title, ret, throw. rewrite Hdoc.
  destruct (truthy _) eqn:H1; simpl; [by intros [= <-]|].
  destruct (truthy (title existing)) eqn:H2; simpl; [by intros [= <-]|done].
Qed.

Lemma watched_step (e : Env) (msg : option Msg.t) (db : DB) :
  document e = None →
  (∀ k r, db !! k = Some r → watched k r) →
  ∀ k r, (onMessage e msg db).2 !! k = Some r → watched k r.
Proof.
  intros Hdoc Hall.
  assert (keyed db) as Hk by (intros k r Hr; by destruct (Hall k r Hr)).
  destruct (onMessage_cases e msg db) as [(id & meta & ->)|[-> _]]; [|done].
  fold (recordWatch e id meta db). rewrite recordWatch_spec. simpl.
  rewrite (existing_key e id db Hk).
  destruct (open_rejects (first e)); [done|].
  destruct (new_title _ _ _ _).1 as [t|] eqn:Ht; [|done].
  apply (new_title_truthy _ _ _ _ _ Hdoc) in Ht.
  destruct (open_rejects (second e) || request_errors (second e)); [done|].
  simpl. intros k r. rewrite lookup_insert. case_decide; [|by apply Hall].
  subst k. intros [= <-].
  set (existing := default (fresh id) (read (first e) id db)).
  assert (0 ≤ watchCount existing
          ∧ watchCount existing = Z.of_nat (length (events existing))) as [H0 Hc].
  { subst existing. unfold read.
    destruct (request_errors (first e)); [by split|].
    destruct (db !! id) as [r0|] eqn:Hr0; [|by split]. simpl.
    destruct (Hall id r0 Hr0) as (_ & ? & ? & _). split; [lia|done]. }
  destruct (appended_last e existing t) as [Hseen Hlast].
  unfold watched. rewrite Hseen, Hlast.
  split; [by apply existing_key|]. simpl. rewrite num_or_0, length_app. simpl.
  split; [lia|]. split; [lia|]. split; [done|]. split; [by eexists|done].
Qed.

(** X6: what the service worker stores is never a record of nothing:
    starting from the empty store, every record it holds sits at the key of
    its [videoId], counts at least one watch and as many as it has events,
    and has a title that is not empty and a [lastSeenAt] that is its last
    event. *)
Theorem stored_records_are_watched (inputs : list (Env * option Msg.t))
    (k : string) (r : WatchRecord) :
  in_service_worker inputs →
  (run inputs ∅).2 !! k = Some r →
  watched k r.
Proof.
  intros Hsw.
  assert (∀ (db : DB), (∀ k r, db !! k = Some r → watched k r) →
            ∀ k r, (run inputs db).2 !! k = Some r → watched k r) as Hrun.
  { induction Hsw as [|[e msg] rest Hdoc Hrest IH]; intros db Hall; [done|].
    rewrite run_cons. simpl. apply IH. by apply watched_step. }
  apply Hrun. intros k' r' Hl. rewrite lookup_empty in Hl. discriminate.
Qed.

Lemma stored_records_are_watched_witness :
  watched "abc123"
    (appended (at_time "2026-01-01T10:00:00.000Z") (fresh "abc123")
       (Some "Intro")).
Proof.
  apply (stored_records_are_watched
           [(at_time "2026-01-01T10:00:00.000Z",
             request "record_watch" (Some "abc123") (titled "Intro"))]).
  - repeat constructor.
  - reflexivity.
Defined.

(** A message for which the read works appends to the record of [id] the
    clock reading it recorded a watch of [id] at, if it did. *)
Lemma recorded_step (id : string) (e : Env) (msg : option Msg.t) (db : DB) :
  keyed db →
  request_errors (first e) = false →
  from_option events [] ((onMessage e msg db).2 !! id)
  = from_option events [] (db !! id)
    ++ (if asks_record id msg && is_success (onMessage e msg db).1
        then [now e] else [])
  ∧ from_option watchCount 0 ((onMessage e msg db).2 !! id)
    = from_option watchCount 0 (db !! id)
      + (if asks_record id msg && is_success (onMessage e msg db).1
         then 1 else 0).
Proof.
  intros Hk Hread.
  destruct (onMessage_cases e msg db) as [(id' & meta & ->)|[Heq Hns]].
  - fold (recordWatch e id' meta db).
    destruct (recordWatch_keyed e id' meta db Hk) as [->|[t ->]]; simpl.
    { rewrite andb_false_r, app_nil_r. split; [done|lia]. }
    rewrite andb_true_r, lookup_insert.
    destruct (decide (id' = id)) as [->|Hne].
    + rewrite bool_decide_eq_true_2 by done. simpl.
      unfold read. rewrite Hread, num_or_0.
      by destruct (db !! id).
    + rewrite bool_decide_eq_false_2 by (intros [_ [= ?]]; done).
      rewrite app_nil_r. split; [done|lia].
  - rewrite Heq.
    assert (is_success (onMessage e msg db).1 = false) as ->.
    { destruct (is_success _) eqn:Hs; [|done].
      by apply is_success_succeeded in Hs. }
    rewrite andb_false_r, app_nil_r. split; [done|lia].
Qed.

(** With reads that work, a run of messages one after the other leaves for
    an identifier the log of its recorded watches. *)
Lemma run_is_log (id : string) (inputs : list (Env * option Msg.t)) :
  reads_work inputs →
  from_option events [] ((run inputs ∅).2 !! id) = recorded_at id inputs ∅
  ∧ from_option watchCount 0 ((run inputs ∅).2 !! id)
    = Z.of_nat (length (recorded_at id inputs ∅)).
Proof.
  intros Hreads.
  assert (∀ db : DB, keyed db →
            from_option events [] ((run inputs db).2 !! id)
            = from_option events [] (db !! id) ++ recorded_at id inputs db
            ∧ from_option watchCount 0 ((run inputs db).2 !! id)
              = from_option watchCount 0 (db !! id)
                + Z.of_nat (length (recorded_at id inputs db))) as Hrun.
  { induction Hreads as [|[e msg] rest Hread Hrest IH]; intros db Hk.
    - simpl. rewrite app_nil_r. split; [done|lia].
    - rewrite run_cons. simpl in *.
      destruct (IH _ (keyed_step e msg db Hk)) as [IHe IHc].
      destruct (recorded_step id e msg db Hk Hread) as [He Hc].
      rewrite IHe, IHc, He, Hc, length_app.
      split; [by rewrite app_assoc|].
      destruct (asks_record id msg && is_success (onMessage e msg db).1);
        simpl; lia. }
  destruct (Hrun ∅ keyed_empty) as [He Hc].
  rewrite lookup_empty in *. simpl in *. by split.
Qed.

(** A run of four messages: the untitled first watch of the other video is
    not recorded, the two watches of this one are. *)
Example log_of_four_messages :
  recorded_at "abc123"
    [(at_time "2026-01-01T10:00:00.000Z",
      request "record_watch" (Some "abc123") (titled "Intro"));
     (at_time "2026-01-01T10:00:01.000Z",
      request "get_video" (Some "abc123") None);
     (at_time "2026-01-02T10:00:00.000Z",
      request "record_watch" (Some "xyz789") None);
     (at_time "2026-01-03T10:00:00.000Z",
      request "record_watch" (Some "abc123") None)] ∅
  = ["2026-01-01T10:00:00.000Z"; "2026-01-03T10:00:00.000Z"].
Proof. vm_compute. reflexivity. Qed.

End StoreWrites.

(** * The runs of the listener under way together *)

Section Interleaving.
Import ServiceWorker Store Trace Handlers.

(** [record_watch] is its two parts, one after the other on one store. *)
Lemma record_watch_split (e : Env) (m : Msg.t) (db : DB) :
  record_watch e m db = (obj ← prepare e m; commit e obj) db.
Proof.
  unfold record_watch, prepare, commit, mbind, Async_bind, bind, ret.
  destruct (getVideo (first e) (Msg.videoId m) db) as [[found|] db1]; [|done].
  destruct (new_title e m _ db1) as [[t|] db2]; [|done].
  by destruct (putVideo (second e) _ db2) as [[[]|] db3].
Qed.

Lemma prepare_spec (e : Env) (m : Msg.t) (db : DB) :
  prepare e m db =
    match Msg.videoId m with
    | None => (Rejected, db)
    | Some id =>
        if open_rejects (first e) then (Rejected, db)
        else
          let existing := default (fresh id) (read (first e) id db) in
          match (new_title e m existing db).1 with
          | Resolved t => (Resolved (appended e existing t), db)
          | Rejected => (Rejected, db)
          end
    end.
Proof.
  unfold prepare, getVideo, new_title, openDb, read, fresh, appended, mbind,
    Async_bind, bind, ret, throw.
  destruct (open_rejects (first e)); [by destruct (Msg.videoId m)|].
  destruct (Msg.videoId m) as [id|]; [|done]. simpl.
  destruct (request_errors (first e)); [|destruct (db !! id) as [r|]];
    simpl; repeat case_match; simplify_eq/=; done.
Qed.

Lemma commit_spec (e : Env) (obj : WatchRecord) (db : DB) :
  commit e obj db =
    if open_rejects (second e) then (Rejected, db)
    else match videoId obj with
         | None => (Rejected, db)
         | Some k =>
             if request_errors (second e) then (Rejected, db)
             else (Resolved (RWatch true (watchCount obj)), <[k := obj]> db)
         end.
Proof.
  unfold commit, putVideo, openDb, mbind, Async_bind, bind, ret, throw.
  destruct (open_rejects (second e)); [done|]. simpl.
  destruct (videoId obj); [|done]. by destruct (request_errors (second e)).
Qed.

Lemma asks_put_Some (msg : option Msg.t) (m : Msg.t) :
  asks_put msg = Some m →
  msg = Some m ∧ Msg.type m = Some "record_watch"
  ∧ ∀ e, onMessage e msg =
         λ db, match record_watch e m db with
               | (Resolved r, db') => (Responded r, db')
               | (Rejected, db') => (NoResponse, db')
               end.
Proof.
  unfold asks_put. destruct msg as [[ty vid mt]|]; [|done].
  case_bool_decide as Hty; [|done]. intros [= <-]. simpl in Hty. subst ty.
  split; [done|]. split; [done|]. intros e. reflexivity.
Qed.

Lemma asks_put_None (e : Env) (msg : option Msg.t) (db : DB) :
  asks_put msg = None → (onMessage e msg db).2 = db.
Proof.
  intros Hno.
  destruct (onMessage_cases e msg db) as [(id & meta & ->)|[Heq _]]; [|done].
  discriminate.
Qed.

(** The two calls of one run in a row are a run of [onMessage]. *)
Lemma advance_twice (e : Env) (msg : option Msg.t) (db : DB) :
  advance (advance (Delivered e msg) db).1 (advance (Delivered e msg) db).2
  = (Settled (onMessage e msg db).1, (onMessage e msg db).2).
Proof.
  simpl. destruct (asks_put msg) as [m|] eqn:Hput.
  - destruct (asks_put_Some msg m Hput) as (-> & _ & Hon). rewrite Hon.
    rewrite record_watch_split. unfold mbind, Async_bind, bind.
    destruct (prepare e m db) as [[obj|] db1]; [|done]. simpl.
    by destruct (commit e obj db1) as [[r|] db2].
  - by destruct (onMessage e msg db).
Qed.

Lemma exec_app (s1 s2 : list nat) (pool : list handler) (db : DB) :
  exec (s1 ++ s2) pool db = exec s2 (exec s1 pool db).1 (exec s1 pool db).2.
Proof.
  revert pool db. induction s1 as [|i s1 IH]; intros pool db; [done|].
  simpl. destruct (pool !! i) as [h|]; [|apply IH].
  destruct (advance h db). apply IH.
Qed.

Lemma exec_pair (i : nat) (e : Env) (msg : option Msg.t)
    (pool : list handler) (db : DB) :
  pool !! i = Some (Delivered e msg) →
  exec [i; i] pool db
  = (<[i := Settled (onMessage e msg db).1]> pool, (onMessage e msg db).2).
Proof.
  intros Hi. pose proof (advance_twice e msg db) as Htwice.
  assert (i < length pool)%nat as Hlt by (by eapply lookup_lt_Some).
  cbn [exec]. rewrite Hi.
  destruct (advance (Delivered e msg) db) as [h1 db1]. simpl in Htwice.
  rewrite list_lookup_insert_eq by done. rewrite Htwice.
  by rewrite list_insert_insert_eq.
Qed.

(** Runs that do not overlap are the runs of [ServiceWorker.run]. *)
Lemma exec_settled (answers : list outcome)
    (inputs : list (Env * option Msg.t)) (db : DB) :
  exec (seq (length answers) (length inputs) ≫= λ i, [i; i])
    ((Settled <$> answers) ++ start inputs) db
  = ((Settled <$> answers) ++ (Settled <$> (run inputs db).1),
     (run inputs db).2).
Proof.
  revert answers db.
  induction inputs as [|[e msg] rest IH]; intros answers db; [done|].
  cbn [length seq]. rewrite bind_cons, exec_app.
  rewrite (exec_pair _ e msg).
  2:{ rewrite lookup_app_r by (by rewrite length_fmap).
      by rewrite length_fmap, Nat.sub_diag. }
  cbn [fst snd]. rewrite run_cons. cbn [fst snd].
  replace (<[length answers:=Settled (onMessage e msg db).1]>
             ((Settled <$> answers) ++ start ((e, msg) :: rest)))
    with ((Settled <$> (answers ++ [(onMessage e msg db).1])) ++ start rest).
  2:{ rewrite fmap_app, <- app_assoc. simpl.
      replace (length answers) with (length (Settled <$> answers) + 0)%nat
        by (rewrite length_fmap; lia).
      by rewrite insert_app_r. }
  specialize (IH (answers ++ [(onMessage e msg db).1]) (onMessage e msg db).2).
  rewrite length_app in IH. simpl in IH.
  replace (S (length answers)) with (length answers + 1)%nat by lia.
  rewrite IH. by rewrite fmap_app, <- app_assoc.
Qed.

Lemma exec_one_at_a_time (inputs : list (Env * option Msg.t)) (db : DB) :
  exec (one_at_a_time (length inputs)) (start inputs) db
  = (Settled <$> (run inputs db).1, (run inputs db).2).
Proof. apply (exec_settled [] inputs db). Qed.

Lemma answered_at_settled (id : string) (inputs : list (Env * option Msg.t))
    (db : DB) :
  answered_at id inputs (Settled <$> (run inputs db).1) = recorded_at id inputs db.
Proof.
  revert db. induction inputs as [|[e msg] rest IH]; intros db; [done|].
  rewrite run_cons. unfold answered_at in *. simpl.
  rewrite <- IH.
  by destruct (asks_record id msg && is_success (onMessage e msg db).1).
Qed.

(** X7: when the runs of the listener do not overlap, each message making
    its storage calls before the next makes its first, and no read fails,
    the record of an identifier is the log of its recorded watches: after
    any such run from the empty store its events are the clock readings of
    the [record_watch] messages for it that were answered with success, in
    order, and its count is their number. *)
Theorem record_is_log_of_answered (id : string)
    (inputs : list (Env * option Msg.t)) :
  reads_work inputs →
  let result := exec (one_at_a_time (length inputs)) (start inputs) ∅ in
  from_option events [] (result.2 !! id) = answered_at id inputs result.1
  ∧ from_option watchCount 0 (result.2 !! id)
    = Z.of_nat (length (answered_at id inputs result.1)).
Proof.
  intros Hreads. rewrite exec_one_at_a_time. cbn [fst snd].
  rewrite answered_at_settled. by apply run_is_log.
Qed.

Lemma record_is_log_of_answered_witness :
  let inputs :=
    [(at_time "2026-01-01T10:00:00.000Z",
      request "record_watch" (Some "abc123") (titled "Intro"));
     (at_time "2026-01-01T10:00:01.000Z",
      request "get_video" (Some "abc123") None);
     (at_time "2026-01-02T10:00:00.000Z",
      request "record_watch" (Some "xyz789") None);
     (at_time "2026-01-03T10:00:00.000Z",
      request "record_watch" (Some "abc123") None)] in
  let result := exec (one_at_a_time (length inputs)) (start inputs) ∅ in
  from_option events [] (result.2 !! "abc123")
  = answered_at "abc123" inputs result.1
  ∧ from_option watchCount 0 (result.2 !! "abc123")
    = Z.of_nat (length (answered_at "abc123" inputs result.1)).
Proof.
  intros inputs.
  apply (record_is_log_of_answered "abc123" inputs).
  repeat constructor.
Defined.

(** X3: a put that finds the record of its identifier as the read of its
    run left it only appends: with a read that works, the record of every
    identifier that had one is still there, its events start with the
    events it had, and its count has not gone down. *)
Theorem events_only_grow (e : Env) (msg : option Msg.t) (obj : WatchRecord)
    (db0 db : DB) (k : string) (r : WatchRecord) :
  keyed db0 →
  request_errors (first e) = false →
  (advance (Delivered e msg) db0).1 = Putting e obj →
  (∀ id, videoId obj = Some id → db !! id = db0 !! id) →
  db !! k = Some r →
  ∃ r', (advance (Putting e obj) db).2 !! k = Some r'
        ∧ events r `prefix_of` events r'
        ∧ watchCount r ≤ watchCount r'.
Proof.
  intros Hk Hread Hadv Hsame Hr. cbn [advance] in *.
  destruct (asks_put msg) as [m|]; [|by destruct (onMessage e msg db0)].
  rewrite prepare_spec in Hadv.
  destruct (Msg.videoId m) as [id|]; [|done].
  destruct (open_rejects (first e)); [done|]. cbn zeta in Hadv.
  destruct (new_title _ _ _ _).1 as [t|]; [|done]. injection Hadv as <-.
  rewrite commit_spec. cbn [videoId appended].
  rewrite (existing_key e id db0 Hk).
  destruct (open_rejects (second e)).
  { exists r. split; [done|]. split; [done|lia]. }
  destruct (request_errors (second e)); cbn [snd].
  { exists r. split; [done|]. split; [done|lia]. }
  rewrite lookup_insert. case_decide as Hid; [|by exists r].
  subst k. specialize (Hsame id (existing_key e id db0 Hk)).
  unfold read. rewrite Hread, <- Hsame, Hr. simpl.
  eexists. split; [done|]. simpl. rewrite num_or_0.
  split; [by apply prefix_app_r|lia].
Qed.

Lemma events_only_grow_witness :
  let e := at_time "2026-01-02T10:00:00.000Z" in
  let db : DB := {[ "abc123" := appended (at_time "2026-01-01T10:00:00.000Z")
                                  (fresh "abc123") (Some "Intro") ]} in
  let obj := appended e (appended (at_time "2026-01-01T10:00:00.000Z")
                           (fresh "abc123") (Some "Intro")) (Some "Intro") in
  ∃ r', (advance (Putting e obj) db).2 !! "abc123" = Some r'
        ∧ events (appended (at_time "2026-01-01T10:00:00.000Z")
                    (fresh "abc123") (Some "Intro")) `prefix_of` events r'
        ∧ watchCount (appended (at_time "2026-01-01T10:00:00.000Z")
                        (fresh "abc123") (Some "Intro")) ≤ watchCount r'.
Proof.
  intros e db obj.
  apply (events_only_grow e (request "record_watch" (Some "abc123") None)
           obj db db "abc123").
  - intros k r. subst db. rewrite lookup_singleton. case_decide; [|discriminate].
    intros [= <-]. simpl. by f_equal.
  - reflexivity.
  - reflexivity.
  - done.
  - reflexivity.
Defined.

(** With a working storage engine and a title in [meta], the two parts of
    [record_watch] and the whole of it. *)
Lemma prepare_ok (e : Env) (id : string) (meta : option Msg.Meta) (db : DB) :
  works (first e) → truthy (meta_title meta) = true →
  prepare e {| Msg.type := Some "record_watch"; Msg.videoId := Some id;
               Msg.meta := meta |} db
  = (Resolved (appended e (default (fresh id) (db !! id)) (meta_title meta)),
     db).
Proof.
  intros [Ho Hr] Ht. rewrite prepare_spec. cbn [Msg.videoId]. rewrite Ho.
  unfold read. rewrite Hr. unfold new_title, ret. simpl.
  fold (meta_title meta). by rewrite Ht.
Qed.

Lemma commit_ok (e : Env) (obj : WatchRecord) (k : string) (db : DB) :
  works (second e) → videoId obj = Some k →
  commit e obj db = (Resolved (RWatch true (watchCount obj)), <[k := obj]> db).
Proof. intros [Ho Hr] Hk. by rewrite commit_spec, Ho, Hk, Hr. Qed.

Lemma appended_key (e : Env) (id : string) (t : option string) (db : DB) :
  keyed db → videoId (appended e (default (fresh id) (db !! id)) t) = Some id.
Proof.
  intros Hk. simpl. destruct (db !! id) as [r|] eqn:Hr; [by apply Hk|done].
Qed.

Lemma keyed_insert (k : string) (r : WatchRecord) (db : DB) :
  keyed db → videoId r = Some k → keyed (<[k := r]> db).
Proof.
  intros Hk Hr k' r'. rewrite lookup_insert. case_decide; [|by apply Hk].
  intros [= <-]. by subst k'.
Qed.

Lemma recordWatch_ok (e : Env) (id : string) (meta : option Msg.Meta) (db : DB) :
  keyed db → no_faults e → truthy (meta_title meta) = true →
  recordWatch e id meta db
  = (Responded (RWatch true (from_option watchCount 0 (db !! id) + 1)),
     <[id := appended e (default (fresh id) (db !! id)) (meta_title meta)]> db).
Proof.
  intros Hk [Hf Hs] Ht. unfold recordWatch, request, onMessage.
  change (handle e (Some ?x)) with (record_watch e x).
  rewrite record_watch_split. unfold mbind, Async_bind, bind.
  rewrite prepare_ok by done.
  rewrite (commit_ok e _ id) by (by try apply appended_key).
  simpl. rewrite num_or_0. by destruct (db !! id).
Qed.

(** X22: two runs for one identifier that overlap lose a watch.  When both
    have read before either puts, both are answered with success and the
    same count, and the record holds one event more, not two: the clock
    reading of the run that put first is gone.  One after the other, the
    same two messages are counted one and two and both readings are kept. *)
Theorem overlapping_runs_lose_a_watch (e1 e2 : Env) (id : string)
    (meta1 meta2 : option Msg.Meta) (db : DB) :
  keyed db →
  no_faults e1 → no_faults e2 →
  truthy (meta_title meta1) = true → truthy (meta_title meta2) = true →
  let n := from_option watchCount 0 (db !! id) in
  let old := from_option events [] (db !! id) in
  let pool := start [(e1, request "record_watch" (Some id) meta1);
                     (e2, request "record_watch" (Some id) meta2)] in
  (∃ r, exec [0; 1; 0; 1]%nat pool db
        = ([Settled (Responded (RWatch true (n + 1)));
            Settled (Responded (RWatch true (n + 1)))], <[id := r]> db)
        ∧ events r = old ++ [now e2]
        ∧ watchCount r = n + 1)
  ∧ (∃ r, exec (one_at_a_time 2) pool db
          = ([Settled (Responded (RWatch true (n + 1)));
              Settled (Responded (RWatch true (n + 2)))], <[id := r]> db)
          ∧ events r = old ++ [now e1; now e2]
          ∧ watchCount r = n + 2).
Proof.
  intros Hk [Hf1 Hs1] [Hf2 Hs2] Ht1 Ht2 n old pool.
  assert (watchCount (default (fresh id) (db !! id)) = n
          ∧ events (default (fresh id) (db !! id)) = old) as [Hn Hold].
  { subst n old. by destruct (db !! id). }
  split.
  - exists (appended e2 (default (fresh id) (db !! id)) (meta_title meta2)).
    split; [|split; [by simpl; rewrite Hold|by simpl; rewrite num_or_0, Hn]].
    subst pool. unfold start, request.
    cbn [fmap list_fmap exec lookup list_lookup advance asks_put Msg.type
         fst snd].
    rewrite bool_decide_eq_true_2 by done.
    rewrite !prepare_ok by done.
    cbn [insert list_insert lookup list_lookup advance asks_put Msg.type].
    rewrite bool_decide_eq_true_2 by done.
    rewrite prepare_ok by done.
    cbn [insert list_insert lookup list_lookup advance].
    rewrite (commit_ok e1 _ id) by (by try apply appended_key).
    cbn [insert list_insert lookup list_lookup advance].
    rewrite (commit_ok e2 _ id) by (by try apply appended_key).
    cbn [insert list_insert]. rewrite insert_insert_eq.
    simpl. by rewrite !num_or_0, Hn.
  - set (r1 := appended e1 (default (fresh id) (db !! id)) (meta_title meta1)).
    exists (appended e2 r1 (meta_title meta2)).
    split; [|split].
    + subst pool. change 2%nat with
        (length [(e1, request "record_watch" (Some id) meta1);
                 (e2, request "record_watch" (Some id) meta2)]).
      rewrite exec_one_at_a_time, !run_cons. cbn [run fst snd fmap list_fmap].
      fold (recordWatch e1 id meta1 db).
      rewrite (recordWatch_ok e1 id meta1 db) by done. cbn [fst snd].
      fold r1. fold (recordWatch e2 id meta2 (<[id:=r1]> db)).
      rewrite recordWatch_ok;
        [|by apply keyed_insert; [|apply appended_key]|done..].
      rewrite lookup_insert_eq, insert_insert_eq. cbn [fst snd default].
      subst r1. simpl. rewrite num_or_0, Hn.
      by replace (n + 1 + 1) with (n + 2) by lia.
    + subst r1. simpl. by rewrite Hold, <- app_assoc.
    + subst r1. simpl. rewrite !num_or_0, Hn. lia.
Qed.

Lemma overlapping_runs_lose_a_watch_witness :
  let e1 := at_time "2026-01-01T10:00:00.000Z" in
  let e2 := at_time "2026-01-01T10:00:00.050Z" in
  let db : DB := ∅ in
  let n := from_option watchCount 0 (db !! "abc123") in
  let old := from_option events [] (db !! "abc123") in
  let pool := start [(e1, request "record_watch" (Some "abc123") (titled "Intro"));
                     (e2, request "record_watch" (Some "abc123") (titled "Intro"))] in
  (∃ r, exec [0; 1; 0; 1]%nat pool db
        = ([Settled (Responded (RWatch true (n + 1)));
            Settled (Responded (RWatch true (n + 1)))], <["abc123" := r]> db)
        ∧ events r = old ++ ["2026-01-01T10:00:00.050Z"]
        ∧ watchCount r = n + 1)
  ∧ (∃ r, exec (one_at_a_time 2) pool db
          = ([Settled (Responded (RWatch true (n + 1)));
              Settled (Responded (RWatch true (n + 2)))], <["abc123" := r]> db)
          ∧ events r = old ++ ["2026-01-01T10:00:00.000Z";
                               "2026-01-01T10:00:00.050Z"]
          ∧ watchCount r = n + 2).
Proof.
  intros e1 e2 db.
  apply (overlapping_runs_lose_a_watch e1 e2 "abc123" (titled "Intro")
           (titled "Intro") db).
  - apply keyed_empty.
  - repeat split.
  - repeat split.
  - reflexivity.
  - reflexivity.
Defined.

(** The two schedules of the witness, run: the answers and the events that
    are stored. *)
Example two_watches_one_stored :
  let e1 := at_time "2026-01-01T10:00:00.000Z" in
  let e2 := at_time "2026-01-01T10:00:00.050Z" in
  let pool := start [(e1, request "record_watch" (Some "abc123") (titled "Intro"));
                     (e2, request "record_watch" (Some "abc123") (titled "Intro"))] in
  let '(answers, db) := exec [0; 1; 0; 1]%nat pool ∅ in
  let '(answers', db') := exec [0; 0; 1; 1]%nat pool ∅ in
  answers = [Settled (Responded (RWatch true 1));
             Settled (Responded (RWatch true 1))]
  ∧ events <$> db !! "abc123" = Some ["2026-01-01T10:00:00.050Z"]
  ∧ answers' = [Settled (Responded (RWatch true 1));
                Settled (Responded (RWatch true 2))]
  ∧ events <$> db' !! "abc123"
    = Some ["2026-01-01T10:00:00.000Z"; "2026-01-01T10:00:00.050Z"].
Proof. vm_compute. repeat split; reflexivity. Qed.

(** One storage call keeps the invariant of the store, the key path, and
    the invariant of the object a run is about to put. *)
Lemma advance_inv (h : handler) (db : DB) :
  store_inv db → keyed db → pending_inv h →
  store_inv (advance h db).2 ∧ keyed (advance h db).2
  ∧ pending_inv (advance h db).1.
Proof.
  intros Hinv Hk Hp. destruct h as [e msg|e obj|o]; cbn [advance]; [| |done].
  - destruct (asks_put msg) as [m|] eqn:Hput.
    + rewrite prepare_spec. destruct (Msg.videoId m) as [id|]; [|done].
      destruct (open_rejects (first e)); [done|]. cbn zeta.
      destruct (new_title _ _ _ _).1 as [t|]; [|done].
      split; [done|]. split; [done|]. apply appended_inv.
      unfold read. destruct (request_errors (first e)); [done|].
      destruct (db !! id) as [r0|] eqn:Hr; [|done].
      by destruct (Hinv id r0 Hr).
    + pose proof (asks_put_None e msg db Hput) as Hsame.
      destruct (onMessage e msg db) as [o db']. simpl in *. by subst db'.
  - rewrite commit_spec. destruct (open_rejects (second e)); [done|].
    destruct (videoId obj) as [k|] eqn:Hobj; [|done].
    destruct (request_errors (second e)); [done|]. cbn [fst snd].
    split; [|split; [by apply keyed_insert|done]].
    intros k' r'. rewrite lookup_insert. case_decide; [|by apply Hinv].
    by intros [= <-].
Qed.

Lemma exec_inv (sched : list nat) (pool : list handler) (db : DB) :
  store_inv db → keyed db → Forall pending_inv pool →
  store_inv (exec sched pool db).2 ∧ keyed (exec sched pool db).2
  ∧ Forall pending_inv (exec sched pool db).1.
Proof.
  revert pool db. induction sched as [|i sched IH]; intros pool db Hinv Hk Hp;
    [done|].
  cbn [exec]. destruct (pool !! i) as [h|] eqn:Hi; [|by apply IH].
  destruct (advance_inv h db Hinv Hk) as (H1 & H2 & H3).
  { by eapply Forall_lookup_1. }
  destruct (advance h db) as [h' db']. apply IH; [done..|].
  by apply Forall_insert.
Qed.

Lemma start_pending (inputs : list (Env * option Msg.t)) :
  Forall pending_inv (start inputs).
Proof. unfold start. apply Forall_fmap, Forall_forall. by intros [e msg] _. Qed.

(** X23: the invariant of the store holds however the runs of the listener
    overlap: after any schedule of the storage calls of any messages, every
    record has [watchCount] equal to the length of [events] and [lastSeenAt]
    equal to the last event, and sits at the key of its [videoId]. *)
Theorem interleaving_keeps_invariant (sched : list nat)
    (inputs : list (Env * option Msg.t)) (db : DB) :
  store_inv db → keyed db →
  store_inv (exec sched (start inputs) db).2
  ∧ keyed (exec sched (start inputs) db).2.
Proof.
  intros Hinv Hk.
  destruct (exec_inv sched (start inputs) db Hinv Hk (start_pending inputs))
    as (H1 & H2 & _).
  by split.
Qed.

Lemma interleaving_keeps_invariant_witness :
  let inputs :=
    [(at_time "2026-01-01T10:00:00.000Z",
      request "record_watch" (Some "abc123") (titled "Intro"));
     (at_time "2026-01-01T10:00:00.050Z",
      request "record_watch" (Some "abc123") (titled "Intro"));
     (at_time "2026-01-01T10:00:01.000Z",
      request "get_all_videos" None None)] in
  store_inv (exec [0; 1; 2; 0; 1]%nat (start inputs) ∅).2
  ∧ keyed (exec [0; 1; 2; 0; 1]%nat (start inputs) ∅).2.
Proof.
  intros inputs.
  apply (interleaving_keeps_invariant [0; 1; 2; 0; 1]%nat inputs ∅).
  - apply store_inv_empty.
  - apply keyed_empty.
Defined.

(** How the number of answered watches changes when one run moves on. *)
Lemma answered_at_insert (id : string) (inputs : list (Env * option Msg.t))
    (pool : list handler) (i : nat) (inp : Env * option Msg.t)
    (h h' : handler) :
  inputs !! i = Some inp → pool !! i = Some h →
  (length (answered_at id inputs (<[i := h']> pool))
   + (if asks_record id inp.2 && settled_success h then 1 else 0)
   = length (answered_at id inputs pool)
     + (if asks_record id inp.2 && settled_success h' then 1 else 0))%nat.
Proof.
  unfold answered_at, omap. revert pool i.
  induction inputs as [|inp0 inputs IH]; intros pool i Hinp Hh; [done|].
  destruct pool as [|h0 pool]; [done|].
  destruct i as [|i]; simpl in *.
  - simplify_eq.
    destruct (asks_record id inp.2 && settled_success h),
      (asks_record id inp.2 && settled_success h'); simpl; lia.
  - specialize (IH pool i Hinp Hh).
    destruct (asks_record id inp0.2 && settled_success h0); simpl; lia.
Qed.

Lemma asks_record_put (id : string) (msg : option Msg.t) :
  asks_record id msg = true → ∃ m, asks_put msg = Some m ∧ msg = Some m.
Proof.
  unfold asks_record, asks_put. destruct msg as [m|]; [|done].
  intros [Hty _]%bool_decide_eq_true. rewrite bool_decide_eq_true_2 by done.
  by exists m.
Qed.

Lemma asks_record_inj (id id' : string) (msg : option Msg.t) :
  asks_record id msg = true → asks_record id' msg = true → id = id'.
Proof.
  unfold asks_record. destruct msg as [m|]; [|done].
  intros [_ H1]%bool_decide_eq_true [_ H2]%bool_decide_eq_true. congruence.
Qed.

(** One storage call, counted: the stored count of [id] stays within the
    number of answered watches, and so does, by one, the count of an object
    about to be put. *)
Lemma advance_count (id : string) (inp : Env * option Msg.t) (h : handler)
    (db : DB) (S : Z) :
  0 ≤ S → keyed db → belongs inp h →
  from_option watchCount 0 (db !! id) ≤ S →
  pending_le id (S + 1) h →
  let flag h := asks_record id inp.2 && settled_success h in
  keyed (advance h db).2
  ∧ belongs inp (advance h db).1
  ∧ flag h = false
  ∧ from_option watchCount 0 ((advance h db).2 !! id)
    ≤ S + (if flag (advance h db).1 then 1 else 0)
  ∧ pending_le id (S + 1) (advance h db).1
  ∨ advance h db = (h, db).
Proof.
  intros HS Hk Hb Hc Hp flag. subst flag.
  assert (∀ db', db' = db →
            keyed db' ∧ belongs inp (Settled NoResponse)
            ∧ from_option watchCount 0 (db' !! id)
              ≤ S + (if asks_record id inp.2
                        && settled_success (Settled NoResponse)
                     then 1 else 0)
            ∧ pending_le id (S + 1) (Settled NoResponse)) as Hnothing.
  { intros db' ->. simpl. rewrite andb_false_r. repeat split; try done; lia. }
  destruct h as [e msg|e obj|o]; cbn [advance]; [| |by right].
  - left. simpl in Hb. cbn [settled_success]. rewrite andb_false_r.
    destruct (asks_put msg) as [m|] eqn:Hput.
    + destruct (asks_put_Some msg m Hput) as (-> & Hty & _).
      rewrite prepare_spec.
      destruct (Msg.videoId m) as [id'|] eqn:Hvid; cbn [fst snd].
      2:{ destruct (Hnothing db eq_refl) as (? & ? & ? & ?). by repeat split. }
      destruct (open_rejects (first e)); cbn [fst snd].
      { destruct (Hnothing db eq_refl) as (? & ? & ? & ?). by repeat split. }
      cbn zeta.
      destruct (new_title _ _ _ _).1 as [t|]; cbn [fst snd].
      2:{ destruct (Hnothing db eq_refl) as (? & ? & ? & ?). by repeat split. }
      cbn [settled_success]. rewrite andb_false_r.
      split; [done|]. split.
      { exists id'. split; [by apply existing_key|]. subst inp. simpl.
        by apply bool_decide_eq_true. }
      split; [done|]. split; [lia|].
      cbn [pending_le videoId appended].
      rewrite (existing_key e id' db Hk). intros [= ->].
      simpl. rewrite num_or_0. unfold read.
      destruct (request_errors (first e)); [simpl; lia|].
      destruct (db !! id); simpl in *; lia.
    + pose proof (asks_put_None e msg db Hput) as Hsame.
      assert (asks_record id msg = false) as Hno.
      { destruct (asks_record id msg) eqn:Ha; [|done].
        apply asks_record_put in Ha as (m & Hm & _). congruence. }
      assert (is_success (onMessage e msg db).1 = false) as Hns.
      { destruct (onMessage_cases e msg db) as [(id' & meta & ->)|[_ Hn]];
          [done|].
        destruct (is_success _) eqn:Hs; [|done].
        by apply is_success_succeeded in Hs. }
      destruct (onMessage e msg db) as [o db']. simpl in *. subst db' inp.
      simpl. rewrite Hno. simpl. split; [done|]. split; [by rewrite Hns|].
      split; [done|]. split; [lia|done].
  - left. destruct Hb as (id' & Hobj & Hasks). cbn [settled_success].
    rewrite andb_false_r. rewrite commit_spec.
    destruct (open_rejects (second e)); cbn [fst snd].
    { destruct (Hnothing db eq_refl) as (? & ? & ? & ?). by repeat split. }
    rewrite Hobj.
    destruct (request_errors (second e)); cbn [fst snd].
    { destruct (Hnothing db eq_refl) as (? & ? & ? & ?). by repeat split. }
    cbn [settled_success is_success]. rewrite andb_true_r.
    split; [by apply keyed_insert|]. split; [intros _; by exists id'|].
    split; [done|]. split; [|done].
    rewrite lookup_insert. case_decide as Hid.
    + subst id'. rewrite Hasks. simpl. by apply Hp.
    + destruct (asks_record id inp.2) eqn:Ha; [|lia].
      destruct Hid. by apply (asks_record_inj id' id inp.2).
Qed.

Lemma exec_count (id : string) (inputs : list (Env * option Msg.t))
    (sched : list nat) (pool : list handler) (db : DB) :
  keyed db →
  Forall2 belongs inputs pool →
  from_option watchCount 0 (db !! id)
    ≤ Z.of_nat (length (answered_at id inputs pool)) →
  Forall (pending_le id (Z.of_nat (length (answered_at id inputs pool)) + 1))
    pool →
  from_option watchCount 0 ((exec sched pool db).2 !! id)
  ≤ Z.of_nat (length (answered_at id inputs (exec sched pool db).1)).
Proof.
  revert pool db.
  induction sched as [|i sched IH]; intros pool db Hk Hb Hc Hp; [done|].
  cbn [exec]. destruct (pool !! i) as [h|] eqn:Hi; [|by apply IH].
  destruct (Forall2_lookup_r _ _ _ _ _ Hb Hi) as (inp & Hinp & Hbel).
  pose proof (answered_at_insert id inputs pool i inp h (advance h db).1
                Hinp Hi) as Hlen.
  destruct (advance_count id inp h db
              (Z.of_nat (length (answered_at id inputs pool))))
    as [(Hk' & Hb' & Hflag & Hc' & Hp')|Hsame];
    [lia|done..|by eapply Forall_lookup_1| |].
  - simpl in Hflag. rewrite Hflag in Hlen.
    destruct (advance h db) as [h' db']. cbn [fst snd] in *.
    apply IH; [done| | |].
    + rewrite <- (list_insert_id inputs i inp Hinp). by apply Forall2_insert.
    + destruct (asks_record id inp.2 && settled_success h'); lia.
    + apply Forall_insert; [|destruct h'; simpl in *; [done| |done];
        intros Hv; specialize (Hp' Hv);
        destruct (asks_record id inp.2 && false); lia].
      eapply Forall_impl; [done|]. intros [| |]; simpl; try done.
      intros Hle Hv. specialize (Hle Hv).
      destruct (asks_record id inp.2 && settled_success h'); lia.
  - rewrite Hsame. rewrite list_insert_id by done. by apply IH.
Qed.

Lemma start_belongs (inputs : list (Env * option Msg.t)) :
  Forall2 belongs inputs (start inputs).
Proof.
  unfold start. apply Forall2_fmap_r, Forall_Forall2_diag, Forall_forall.
  by intros [e msg] _.
Qed.

(** X24: a watch can be lost, none is made up: however the runs of the
    listener overlap and whatever the storage engine does to each call,
    starting from the empty store the count stored for an identifier, and
    the number of its events, is at most the number of [record_watch]
    messages for it that were answered with success. *)
Theorem stored_count_never_exceeds_answers (id : string) (sched : list nat)
    (inputs : list (Env * option Msg.t)) :
  let result := exec sched (start inputs) ∅ in
  from_option watchCount 0 (result.2 !! id)
    ≤ Z.of_nat (length (answered_at id inputs result.1))
  ∧ (length (from_option events [] (result.2 !! id))
     ≤ length (answered_at id inputs result.1))%nat.
Proof.
  intros result. subst result.
  assert (from_option watchCount 0
            ((exec sched (start inputs) ∅).2 !! id)
          ≤ Z.of_nat (length (answered_at id inputs
                                (exec sched (start inputs) ∅).1))) as Hc.
  { apply exec_count; [apply keyed_empty|apply start_belongs| |].
    - rewrite lookup_empty. simpl. lia.
    - unfold start. apply Forall_fmap, Forall_forall. by intros [e msg] _. }
  split; [done|].
  destruct (exec_inv sched (start inputs) ∅ store_inv_empty keyed_empty
              (start_pending inputs)) as (Hinv & _ & _).
  destruct ((exec sched (start inputs) ∅).2 !! id) as [r|] eqn:Hr;
    simpl in *; [|lia].
  destruct (Hinv id r Hr) as [Hlen _]. lia.
Qed.

End Interleaving.

(** * What the readers of the store are shown *)

Section StoreReaders.
Import ServiceWorker Store Trace.

#[local] Arguments stringify_all : simpl never.

Lemma length_cursor (db : DB) : length (cursor db) = size db.
Proof.
  unfold cursor. rewrite length_fmap, merge_sort_Permutation.
  apply length_map_to_list.
Qed.

Lemma cursor_empty (db : DB) : cursor db = [] ↔ db = ∅.
Proof.
  rewrite <- map_size_empty_iff, <- length_cursor. split; [by intros ->|].
  by destruct (cursor db).
Qed.

Lemma NoDup_cursor (db : DB) : keyed db → NoDup (cursor db).
Proof.
  intros Hk. unfold cursor. apply NoDup_fmap_2_strong.
  - intros [k r] [k' r'] Hin Hin' Heq. simpl in Heq. subst r'.
    rewrite merge_sort_Permutation in Hin, Hin'.
    apply elem_of_map_to_list in Hin, Hin'.
    apply Hk in Hin, Hin'. rewrite Hin in Hin'. by injection Hin' as ->.
  - rewrite merge_sort_Permutation. apply NoDup_map_to_list.
Qed.

(** X8: with a working storage engine [getAllVideos] of [db.js] gets every
    stored record once: as many records as the store has keys, no record
    twice, and exactly the records that [getVideo] gets for some
    identifier. *)
Theorem all_videos_lists_each_record_once (e : Env) (db : DB) :
  works (first e) →
  keyed db →
  ∃ all, onMessage e (Some SharedDb.getAllVideos) db = (Responded (RList all), db)
         ∧ length all = size db
         ∧ NoDup all
         ∧ ∀ r, r ∈ all ↔
             ∃ id, onMessage e (Some (SharedDb.getVideo (Some id))) db
                   = (Responded (RRecord r), db).
Proof.
  intros [Ho Hr] Hk. exists (cursor db).
  pose proof (listRecords_spec e db) as Hlist.
  unfold listRecords, request in Hlist. unfold SharedDb.getAllVideos.
  rewrite Hlist, Ho, Hr. split; [done|].
  split; [apply length_cursor|]. split; [by apply NoDup_cursor|].
  intros r. rewrite cursor_records. unfold SharedDb.getVideo.
  split; intros [id Hid]; exists id.
  - pose proof (getRecord_spec e id db) as Hget.
    unfold getRecord, request in Hget. by rewrite Hget, Ho, Hr, Hid.
  - pose proof (getRecord_spec e id db) as Hget.
    unfold getRecord, request in Hget. rewrite Hget, Ho, Hr in Hid.
    destruct (db !! id); by simplify_eq.
Qed.

Lemma all_videos_lists_each_record_once_witness :
  let db := (run [(at_time "2026-01-01T10:00:00.000Z",
                   request "record_watch" (Some "abc123") (titled "Intro"));
                  (at_time "2026-01-02T11:00:00.000Z",
                   request "record_watch" (Some "xyz789") (titled "Outro"))]
               ∅).2 in
  let e := at_time "2026-01-04T09:00:00.000Z" in
  ∃ all, onMessage e (Some SharedDb.getAllVideos) db = (Responded (RList all), db)
         ∧ length all = size db
         ∧ NoDup all
         ∧ ∀ r, r ∈ all ↔
             ∃ id, onMessage e (Some (SharedDb.getVideo (Some id))) db
                   = (Responded (RRecord r), db).
Proof.
  intros db e.
  apply (all_videos_lists_each_record_once e db).
  - split; reflexivity.
  - apply keyed_run. intros k r Hk. rewrite lookup_empty in Hk. discriminate.
Defined.

Lemma fromJSON_toJSON (r : WatchRecord) : fromJSON (toJSON r) = Some r.
Proof.
  destruct r as [vid count evs t seen]. unfold fromJSON, toJSON.
  assert (mapM as_string (JSON.Str <$> evs) = Some evs) as Hevs
    by (by apply mapM_fmap_Some).
  destruct vid, t, seen; simpl; by rewrite Hevs.
Qed.

Lemma records_of_stringify_all (all : list WatchRecord) :
  records_of_text (stringify_all all) = Some all.
Proof.
  unfold records_of_text, stringify_all. rewrite parse_stringify.
  apply mapM_fmap_Some. apply fromJSON_toJSON.
Qed.

(** X9: the file the popup's export button downloads holds the store:
    reading the text back gives the very records [get_all_videos] answers
    with, every property of each: identifier, count, events, title and
    [lastSeenAt].  A file is downloaded exactly when the export request is
    answered, for an empty store too. *)
Theorem exported_file_restores_records (e : Env) (db : DB) :
  match Popup.exportBtn (onMessage e (Some SharedDb.exportJson) db).1,
        (onMessage e (Some SharedDb.getAllVideos) db).1 with
  | Some text, Responded (RList all) => records_of_text text = Some all
  | None, NoResponse => open_rejects (first e) = true
  | _, _ => False
  end.
Proof.
  pose proof (exportSnapshot_spec e db) as Hexp.
  pose proof (listRecords_spec e db) as Hlist.
  unfold exportSnapshot, listRecords, request in *.
  unfold SharedDb.exportJson, SharedDb.getAllVideos.
  rewrite Hexp, Hlist. simpl.
  destruct (open_rejects (first e)); [done|].
  destruct (request_errors (first e)); simpl;
    apply records_of_stringify_all.
Qed.

(** X10: the popup says [No watched videos recorded yet.] exactly when the
    store is empty or the storage engine failed, the open or the cursor;
    otherwise it shows the number of keys of the store and one line for
    each record. *)
Theorem popup_summary_of_store (e : Env) (db : DB) :
  let view :=
    Popup.loadSummary
      (Popup.received (onMessage e (Some SharedDb.getAllVideos) db).1) in
  (view = {| Popup.summary := "No watched videos recorded yet.";
             Popup.output := None |}
   ↔ open_rejects (first e) = true ∨ request_errors (first e) = true ∨ db = ∅)
  ∧ (open_rejects (first e) = false ∧ request_errors (first e) = false
     ∧ db ≠ ∅ →
     Popup.summary view
     = "Tracked videos: " +:+ JSON.number_to_string (Z.of_nat (size db))
     ∧ ∃ all, (onMessage e (Some SharedDb.getAllVideos) db).1
              = Responded (RList all)
              ∧ length all = size db
              ∧ Popup.output view
                = Some (String.concat Tooltip.newline (Popup.line <$> all))).
Proof.
  pose proof (listRecords_spec e db) as Hlist.
  unfold listRecords, request in Hlist. unfold SharedDb.getAllVideos.
  rewrite Hlist. simpl. clear Hlist.
  destruct (open_rejects (first e)); simpl.
  { split; [split; [by left|done]|]. by intros [? _]. }
  destruct (request_errors (first e)); simpl.
  { split; [split; [by right; left|done]|]. by intros (_ & ? & _). }
  pose proof (cursor_empty db) as Hempty. pose proof (length_cursor db) as Hlen.
  destruct (cursor db) as [|r rs] eqn:Hc; simpl.
  - assert (db = ∅) as -> by (by apply Hempty).
    split; [split; [by right; right|done]|]. by intros (_ & _ & ?).
  - split.
    + split; [discriminate|]. intros [?|[?|Hdb]]; try discriminate.
      apply Hempty in Hdb. discriminate.
    + intros _. rewrite <- Hlen. split; [done|]. by exists (r :: rs).
Qed.

(** X11: the popup's [Clear All] clears nothing.  Whether the user confirms
    or not, the store after the click is the store before it.  When the
    user refuses, nothing is sent and no alert is shown; when the user
    confirms, one [get_all_videos] is sent and an alert follows, which says
    [Nothing to clear] exactly when the store is empty or the storage engine
    failed. *)
Theorem clear_all_clears_nothing (confirmed : bool) (e : Env) (db : DB) :
  let alert :=
    Popup.clearBtn_alert confirmed
      (Popup.received (onMessage e (Some SharedDb.getAllVideos) db).1) in
  (run ((λ m, (e, Some m)) <$> Popup.clearBtn_sends confirmed) db).2 = db
  ∧ (Popup.clearBtn_sends confirmed
     = if confirmed then [SharedDb.getAllVideos] else [])
  ∧ (alert = None ↔ confirmed = false)
  ∧ (alert = Some "Nothing to clear"
     ↔ confirmed = true
       ∧ (open_rejects (first e) = true ∨ request_errors (first e) = true
          ∨ db = ∅)).
Proof.
  pose proof (listRecords_spec e db) as Hlist.
  unfold listRecords, request in Hlist. unfold SharedDb.getAllVideos.
  split; [|split; [done|]].
  - destruct confirmed; [|done]. simpl. by rewrite Hlist.
  - rewrite Hlist. clear Hlist. destruct confirmed; simpl.
    2:{ split; [done|]. split; [done|]. by intros [? _]. }
    pose proof (cursor_empty db) as Hempty.
    destruct (open_rejects (first e)); simpl.
    { split; [done|]. split; [|done]. intros _. split; [done|by left]. }
    destruct (request_errors (first e)); simpl.
    { split; [done|]. split; [|done]. intros _. split; [done|by right; left]. }
    destruct (cursor db) as [|r rs]; simpl.
    + split; [done|]. split; [|done]. intros _. split; [done|].
      right. right. by apply Hempty.
    + split; [done|]. split; [discriminate|].
      intros [_ [?|[?|Hdb]]]; try discriminate.
      apply Hempty in Hdb. discriminate.
Qed.



(** X13: for a record that keeps the store's invariant and has events, the
    lines [onClick] joins into the text for [showSimpleTooltip] are the
    number of its events, an empty line, and the dates of its latest
    events, at most ten, the latest first: the first date is that of
    [lastSeenAt]. *)
Theorem tooltip_shows_latest_ten (toLocaleString : string → string)
    (r : WatchRecord) :
  record_inv r →
  events r ≠ [] →
  ∃ dates,
    Tooltip.lines toLocaleString r
    = ("Watched "
         +:+ JSON.number_to_string (Z.of_nat (length (events r))) +:+ " times")
      :: "" :: dates
    ∧ dates
      = toLocaleString <$> reverse (drop (length (events r) - 10) (events r))
    ∧ length dates = (length (events r) `min` 10)%nat
    ∧ head dates = toLocaleString <$> lastSeenAt r.
Proof.
  intros [Hc Hseen] Hne. specialize (Hseen Hne).
  exists (toLocaleString <$> take 10 (reverse (events r))).
  unfold Tooltip.lines. rewrite num_or_0, Hc.
  destruct (events r) as [|x l] eqn:He; [done|].
  split; [done|]. split; [by rewrite take_reverse|].
  split.
  - rewrite length_fmap, length_take, length_reverse. lia.
  - rewrite Hseen, <- head_reverse.
    destruct (reverse (x :: l)) as [|y l'] eqn:Hrev; [done|]. done.
Qed.

Lemma tooltip_shows_latest_ten_witness :
  ∃ dates,
    Tooltip.lines (λ d, d)
      (appended (at_time "2026-01-02T10:00:00.000Z")
         (appended (at_time "2026-01-01T10:00:00.000Z") (fresh "abc123")
            (Some "Intro")) (Some "Intro"))
    = "Watched 2 times" :: "" :: dates
    ∧ dates = ["2026-01-02T10:00:00.000Z"; "2026-01-01T10:00:00.000Z"]
    ∧ length dates = 2%nat
    ∧ head dates = Some "2026-01-02T10:00:00.000Z".
Proof.
  apply (tooltip_shows_latest_ten (λ d, d)
           (appended (at_time "2026-01-02T10:00:00.000Z")
              (appended (at_time "2026-01-01T10:00:00.000Z") (fresh "abc123")
                 (Some "Intro")) (Some "Intro"))).
  - split; [reflexivity|]. intros _. reflexivity.
  - discriminate.
Defined.


End StoreReaders.

(** * More on the detector: whole runs *)

Section DetectorRuns.
Import ContentScript Session.

#[local] Set Warnings "-clear-no-such-hyp".

Lemma detector_run_app (evs evs' : list event) (st : State) :
  run (evs ++ evs') st
  = ((run evs' (run evs st).1).1, (run evs st).2 ++ (run evs' (run evs st).1).2).
Proof.
  revert st. induction evs as [|ev evs IH]; intros st.
  - simpl. by destruct (run evs' st).
  - rewrite <- app_comm_cons, !detector_run_cons, IH. simpl.
    by rewrite app_assoc.
Qed.

(** What a listener does when it does something. *)
Lemma ended_marks (p : Page) (st : State) :
  ended p st = (st, [])
  ∨ ∃ vid, getVideoId p = Some vid ∧ vid ≠ "" ∧ (vid ∉ sessionMarked st)
           ∧ ended p st = mark vid p st.
Proof.
  unfold ended. destruct (getVideoId p) as [vid|]; [|by left].
  destruct (String.eqb_spec vid ""); [by left|].
  case_bool_decide; [by left|]. right. by exists vid.
Qed.

Lemma timeupdate_marks (p : Page) (vd : Video) (st : State) :
  timeupdate p vd st = (st, [])
  ∨ ∃ vid, getVideoId p = Some vid ∧ vid ≠ "" ∧ (vid ∉ sessionMarked st)
           ∧ timeupdate p vd st = mark vid p st.
Proof.
  unfold timeupdate. destruct (getVideoId p) as [vid|]; [|by left].
  destruct (String.eqb_spec vid ""); [by left|].
  destruct (negb _ || _); [by left|].
  destruct (ge _ _); simpl; [|by left].
  case_bool_decide; simpl; [by left|]. right. by exists vid.
Qed.

(** What one event does to the state, by kind of event. *)
Lemma step_cases (ev : event) (st : State) :
  (step ev st).2 = []
  ∧ attached st ⊆ attached (step ev st).1
  ∧ (sessionMarked (step ev st).1 = sessionMarked st
     ∨ (navigates ev st = true ∧ sessionMarked (step ev st).1 = ∅))
  ∨ (∃ p, ev = Timeout p ∨ ev = Click p)
    ∧ attached st ⊆ attached (step ev st).1
    ∧ sessionMarked (step ev st).1 = sessionMarked st
    ∧ (∀ vid, recorded vid (step ev st).2 = 0%nat)
  ∨ ∃ vid p, page_of ev = p ∧ getVideoId p = Some vid ∧ vid ≠ ""
             ∧ (vid ∉ sessionMarked st)
             ∧ (∃ el, el ∈ attached st
                      ∧ (ev = Ended el p ∨ ∃ vd, ev = TimeUpdate el p vd))
             ∧ step ev st = mark vid p st.
Proof.
  destruct ev as [p|p|p|el p|el p vd]; simpl.
  - left. split; [done|]. unfold hrefObserver.
    case_bool_decide; simpl; [|by split; [|left]].
    split; [done|]. by right.
  - right. left. split; [by eexists; left|].
    unfold timeout. destruct (timers st); simpl.
    { split; [done|]. split; [done|]. intros vid. done. }
    split; [|split; [|intros vid; apply recorded_insertButton]].
    + unfold attachVideoListeners. simpl. destruct (video p); [|done].
      case_bool_decide; simpl; set_solver.
    + unfold attachVideoListeners. simpl. destruct (video p); [|done].
      by case_bool_decide.
  - right. left. split; [by eexists; right|]. split; [done|]. split; [done|].
    intros vid. unfold onClick. destruct (getVideoId p) as [vid'|]; [|done].
    by destruct (String.eqb vid' "").
  - case_bool_decide as Hel; [|left; by split; [|split; [|left]]].
    destruct (ended_marks p st) as [->|(vid & Hv & Hne & Hout & ->)].
    { left. by split; [|split; [|left]]. }
    right. right. exists vid, p. repeat (split; [done|]).
    split; [|done]. exists el. split; [done|]. by left.
  - case_bool_decide as Hel; [|left; by split; [|split; [|left]]].
    destruct (timeupdate_marks p vd st) as [->|(vid & Hv & Hne & Hout & ->)].
    { left. by split; [|split; [|left]]. }
    right. right. exists vid, p. repeat (split; [done|]).
    split; [|done]. exists el. split; [done|]. right. by exists vd.
Qed.

Lemma recorded_nil (vid : string) : recorded vid [] = 0%nat.
Proof. done. Qed.

Lemma timeupdate_unknown (p : Page) (vd : Video) (st : State) :
  duration vd = NaN ∨ duration vd = Infinity → timeupdate p vd st = (st, []).
Proof.
  intros Hd. unfold timeupdate. destruct (getVideoId p) as [vid|]; [|done].
  destruct (String.eqb vid ""); [done|].
  by destruct Hd as [-> | ->].
Qed.

(** An event that is no [ended] and no update with a duration sends no
    [record_watch], marks nothing and detaches nothing. *)
Lemma unknown_duration_step (ev : event) (st : State) :
  unknown_duration ev →
  (∀ vid, recorded vid (step ev st).2 = 0%nat)
  ∧ sessionMarked (step ev st).1 ⊆ sessionMarked st
  ∧ attached st ⊆ attached (step ev st).1.
Proof.
  intros Hu.
  destruct (step_cases ev st)
    as [(Hout & Hatt & Hm)|[(_ & Hatt & Hm & Hrec)
        |(vid & p & _ & _ & _ & _ & (el & Hel & Hev) & Hstep)]].
  - rewrite Hout. split; [done|]. split; [|done].
    destruct Hm as [->|[_ ->]]; set_solver.
  - split; [done|]. split; [by rewrite Hm|done].
  - destruct Hev as [->|(vd & ->)]; [done|]. simpl in Hu, Hstep.
    rewrite bool_decide_eq_true_2 in Hstep by done.
    rewrite (timeupdate_unknown p vd st Hu) in Hstep. discriminate.
Qed.

(** X14: a video whose duration is never a time (unknown, or a live
    stream) is recorded by [ended] only: however many position updates come
    with a duration [NaN] or [Infinity], with navigations, timers and
    clicks among them, no [record_watch] is sent; the [ended] signal after
    them sends one. *)
Theorem unknown_duration_only_ended_records (evs : list event) (st : State)
    (el : nat) (p : Page) (vid : string) :
  Forall unknown_duration evs →
  vid ∉ sessionMarked st →
  el ∈ attached st →
  getVideoId p = Some vid → vid ≠ "" →
  (∀ vid', recorded vid' (run evs st).2 = 0%nat)
  ∧ recorded vid (run (evs ++ [Ended el p]) st).2 = 1%nat.
Proof.
  intros Hu Hout Hel Hvid Hne.
  assert ((∀ vid', recorded vid' (run evs st).2 = 0%nat)
          ∧ sessionMarked (run evs st).1 ⊆ sessionMarked st
          ∧ attached st ⊆ attached (run evs st).1) as (Hrec & Hm & Hatt).
  { clear Hout Hel. revert st.
    induction Hu as [|ev evs Hev Hevs IH]; intros st; [done|].
    rewrite detector_run_cons. simpl.
    destruct (unknown_duration_step ev st Hev) as (H1 & H2 & H3).
    destruct (IH (step ev st).1) as (I1 & I2 & I3).
    split; [|split].
    - intros vid'. by rewrite recorded_app, H1, I1.
    - by etrans.
    - by etrans. }
  split; [done|].
  rewrite detector_run_app, (detector_run_cons (Ended el p) []). simpl.
  rewrite recorded_app, Hrec. simpl.
  rewrite bool_decide_eq_true_2 by set_solver.
  rewrite app_nil_r. unfold ended. rewrite Hvid.
  destruct (String.eqb_spec vid ""); [done|].
  rewrite bool_decide_eq_false_2 by set_solver.
  rewrite recorded_mark. by rewrite decide_True.
Qed.

Lemma unknown_duration_only_ended_records_witness :
  let page := watch_page "live01" in
  let st := (timeout page (init page)).1 in
  let evs := [TimeUpdate 1 page
                {| currentTime := of_Z 5000; duration := Infinity |};
              Click page;
              TimeUpdate 1 page
                {| currentTime := of_Z 9000; duration := NaN |}] in
  (∀ vid', recorded vid' (run evs st).2 = 0%nat)
  ∧ recorded "live01" (run (evs ++ [Ended 1 page]) st).2 = 1%nat.
Proof.
  intros page st evs.
  apply (unknown_duration_only_ended_records evs st 1 page "live01").
  - constructor; [right; reflexivity|].
    constructor; [exact I|].
    constructor; [left; reflexivity|]. constructor.
  - vm_compute. set_solver.
  - vm_compute. set_solver.
  - reflexivity.
  - discriminate.
Defined.

Lemma listeners_added_step (ev : event) (st : State) :
  NoDup (listeners_added ev st)
  ∧ (∀ el, el ∈ listeners_added ev st → el ∉ attached st)
  ∧ attached (step ev st).1
    = attached st ∪ list_to_set (listeners_added ev st).
Proof.
  destruct ev as [p|p|p|el p|el p vd]; simpl.
  - split; [constructor|]. split; [intros el Hnil; by apply elem_of_nil in Hnil|].
    unfold hrefObserver. case_bool_decide; simpl; set_solver.
  - unfold timeout. destruct (timers st); simpl.
    { split; [constructor|]. split; [intros el Hnil; by apply elem_of_nil in Hnil|set_solver]. }
    unfold added_listeners, attachVideoListeners. simpl.
    destruct (video p) as [el|]; simpl.
    + case_bool_decide; simpl.
      * split; [constructor|]. split; [intros el' Hnil; by apply elem_of_nil in Hnil|set_solver].
      * split; [apply NoDup_singleton|]. split; [|set_solver].
        intros el' ->%list_elem_of_singleton. done.
    + split; [constructor|]. split; [intros el' Hnil; by apply elem_of_nil in Hnil|set_solver].
  - split; [constructor|]. split; [intros el' Hnil; by apply elem_of_nil in Hnil|set_solver].
  - split; [constructor|]. split; [intros el' Hnil; by apply elem_of_nil in Hnil|].
    case_bool_decide; [|set_solver].
    destruct (ended_marks p st) as [->|(vid & _ & _ & _ & ->)]; simpl;
      set_solver.
  - split; [constructor|]. split; [intros el' Hnil; by apply elem_of_nil in Hnil|].
    case_bool_decide; [|set_solver].
    destruct (timeupdate_marks p vd st) as [->|(vid & _ & _ & _ & ->)];
      simpl; set_solver.
Qed.

(** X15: [attachVideoListeners] adds its listeners to an element once: in
    any run no element gets them twice, none gets them that already has
    them, and the elements that have them at the end are those that had
    them and those that got them. *)
Theorem listeners_are_added_once (evs : list event) (st : State) :
  NoDup (attach_log evs st)
  ∧ (∀ el, el ∈ attach_log evs st → el ∉ attached st)
  ∧ attached (run evs st).1 = attached st ∪ list_to_set (attach_log evs st).
Proof.
  revert st. induction evs as [|ev evs IH]; intros st.
  - simpl. split; [constructor|]. split; [intros el' Hnil; by apply elem_of_nil in Hnil|set_solver].
  - rewrite detector_run_cons. simpl.
    destruct (listeners_added_step ev st) as (H1 & H2 & H3).
    destruct (IH (step ev st).1) as (I1 & I2 & I3).
    split; [|split].
    + apply NoDup_app. split; [done|]. split; [|done].
      intros el Hel Hel'. apply I2 in Hel'. rewrite H3 in Hel'. set_solver.
    + intros el [Hel|Hel]%elem_of_app; [by apply H2|].
      apply I2 in Hel. rewrite H3 in Hel. set_solver.
    + rewrite I3, H3, list_to_set_app_L. set_solver.
Qed.

(** X16: the content script sends two messages only, each for the page
    the sending callback finds: [get_video] for the page's [v] parameter,
    without [meta]; and [record_watch] for a [v] parameter that is not
    empty, with the page's [document.title] as the title of [meta]. *)
Theorem sent_messages_are_well_formed (evs : list event) (st : State) :
  Forall (sent_by evs) (run evs st).2.
Proof.
  revert st. induction evs as [|ev evs IH]; intros st; [constructor|].
  rewrite detector_run_cons. simpl. apply Forall_app. split.
  - apply Forall_forall. intros m Hm. exists ev. split; [by left|].
    destruct (step_cases ev st)
      as [(Hout & _)|[([p [->| ->]] & _)
          |(vid & p & Hp & Hv & Hne & _ & _ & Hstep)]].
    + rewrite Hout in Hm. by apply elem_of_nil in Hm.
    + simpl in *. unfold timeout in Hm.
      destruct (timers st); [by apply elem_of_nil in Hm|]. simpl in Hm.
      unfold insertButtonIfMissing in Hm.
      destruct (menu p), (button p); simpl in Hm;
        try (by apply elem_of_nil in Hm).
      apply list_elem_of_singleton in Hm. by left.
    + simpl in *. unfold onClick in Hm.
      destruct (getVideoId p) as [vid|] eqn:Hv;
        [|by apply elem_of_nil in Hm].
      destruct (String.eqb vid ""); [by apply elem_of_nil in Hm|].
      apply list_elem_of_singleton in Hm. left. by rewrite Hv.
    + rewrite Hstep, Hp in *. simpl in Hm.
      apply elem_of_cons in Hm as [->|Hm].
      { right. by exists vid. }
      apply list_elem_of_singleton in Hm. left. by rewrite Hv.
  - eapply Forall_impl; [apply IH|]. intros m (ev' & Hin & Hw).
    exists ev'. split; [by right|done].
Qed.

(** The bound of the next theorem, with the session set taken into
    account. *)
Lemma recorded_bound (vid : string) (evs : list event) (st : State) :
  (recorded vid (run evs st).2
   ≤ navigations evs st + (if decide (vid ∈ sessionMarked st) then 0 else 1))%nat.
Proof.
  revert st. induction evs as [|ev evs IH]; intros st.
  - simpl. rewrite recorded_nil. lia.
  - rewrite detector_run_cons. simpl. rewrite recorded_app.
    specialize (IH (step ev st).1).
    destruct (navigates ev st) eqn:Hnav.
    + destruct ev as [p| | | |]; try discriminate. simpl in *.
      rewrite ?recorded_nil. repeat case_decide; lia.
    + destruct (step_session vid ev st Hnav) as [Hsub [H0|(H1 & Hout & Hin)]].
      * rewrite H0. repeat case_decide; try lia.
        exfalso. set_solver.
      * rewrite H1. repeat case_decide; try lia; done.
Qed.

(** X17: over a whole run, navigations included, an identifier is sent for
    recording at most once more than the observer saw navigations: once for
    each session. *)
Theorem records_bounded_by_sessions (vid : string) (evs : list event)
    (st : State) :
  (recorded vid (run evs st).2 ≤ navigations evs st + 1)%nat.
Proof.
  pose proof (recorded_bound vid evs st). case_decide; lia.
Qed.

(** In one session the session set holds what it held and what was sent. *)
Lemma session_marks (vid : string) (evs : list event) (st : State) :
  one_session evs st →
  (recorded vid (run evs st).2 ≤ 1)%nat
  ∧ (vid ∈ sessionMarked st → recorded vid (run evs st).2 = 0%nat)
  ∧ (vid ∈ sessionMarked (run evs st).1
     ↔ vid ∈ sessionMarked st ∨ recorded vid (run evs st).2 = 1%nat).
Proof.
  revert st. induction evs as [|ev evs IH]; intros st Hs.
  - simpl. rewrite recorded_nil. split; [lia|]. split; [done|].
    split; [by left|]. by intros [?|?].
  - destruct Hs as [Hnav Hs]. rewrite detector_run_cons. simpl.
    rewrite recorded_app.
    destruct (IH _ Hs) as (IHle & IHin & IHiff).
    destruct (step_session vid ev st Hnav) as [Hsub [H0|(H1 & Hout & Hin)]].
    + rewrite H0. simpl.
      assert (vid ∈ sessionMarked (step ev st).1 → vid ∈ sessionMarked st)
        as Hback.
      { destruct (step_cases ev st)
          as [(_ & _ & [->|[Hn _]])|[(_ & _ & -> & _)
              |(vid' & p & _ & _ & _ & _ & _ & Hstep)]]; try done.
        { congruence. }
        rewrite Hstep in *. simpl. rewrite recorded_mark in H0.
        case_decide; [done|]. set_solver. }
      split; [done|]. split; [intros Hm; apply IHin; by apply Hsub|].
      rewrite IHiff. split; [intros [?|?]; auto|].
      intros [?|?]; [left; by apply Hsub|by right].
    + rewrite H1, (IHin Hin). split; [done|]. split; [done|].
      rewrite IHiff. split; [by right|]. intros _. by left.
Qed.

(** X18: in one session an identifier is in [sessionMarked] exactly when it
    was there at the start or a [record_watch] was sent for it: the set is
    the record of what the session has sent. *)
Theorem marked_iff_sent (vid : string) (evs : list event) (st : State) :
  one_session evs st →
  vid ∈ sessionMarked (run evs st).1
  ↔ vid ∈ sessionMarked st ∨ recorded vid (run evs st).2 = 1%nat.
Proof. intros Hs. by destruct (session_marks vid evs st Hs) as (_ & _ & ?). Qed.

Lemma marked_iff_sent_witness :
  let st := (timeout (watch_page "abc123") (init (watch_page "abc123"))).1 in
  let evs := [TimeUpdate 1 (watch_page "abc123") (at_position 50 100);
              TimeUpdate 1 (watch_page "abc123") (at_position 71 100);
              Ended 1 (watch_page "abc123")] in
  "abc123" ∈ sessionMarked (run evs st).1
  ↔ "abc123" ∈ sessionMarked st ∨ recorded "abc123" (run evs st).2 = 1%nat.
Proof.
  intros st evs.
  apply (marked_iff_sent "abc123" evs st).
  simpl. repeat split; reflexivity.
Defined.

Lemma mutations_same_address (p : Page) (n : nat) (st : State) :
  href (location p) = lastHref st →
  navigations (replicate n (Mutation p)) st = 0%nat
  ∧ run (replicate n (Mutation p)) st = (st, []).
Proof.
  intros Hsame.
  assert (hrefObserver p st = st) as Hobs.
  { unfold hrefObserver. by rewrite bool_decide_eq_false_2 by (by intros []). }
  induction n as [|n [IHn IHr]]; [done|].
  change (replicate (S n) (Mutation p))
    with (Mutation p :: replicate n (Mutation p)).
  rewrite detector_run_cons. simpl. rewrite Hobs, IHn, IHr. split; [|done].
  by rewrite bool_decide_eq_false_2 by (by intros []).
Qed.

(** X21: the observer takes an address for a navigation once: however many
    times it is called while the page stays at one address, the session set
    is emptied at most once, at the first call if the address is new, and
    not at all if it is the address the observer knows; the calls send
    nothing. *)
Theorem mutations_on_one_address_reset_once (p : Page) (n : nat) (st : State) :
  (navigations (replicate n (Mutation p)) st ≤ 1)%nat
  ∧ (run (replicate n (Mutation p)) st).2 = []
  ∧ (href (location p) = lastHref st →
     (run (replicate n (Mutation p)) st).1 = st)
  ∧ (href (location p) ≠ lastHref st → (0 < n)%nat →
     navigations (replicate n (Mutation p)) st = 1%nat
     ∧ sessionMarked (run (replicate n (Mutation p)) st).1 = ∅).
Proof.
  destruct (decide (href (location p) = lastHref st)) as [Hsame|Hnew].
  { destruct (mutations_same_address p n st Hsame) as [-> ->].
    split; [lia|]. split; [done|]. split; [done|]. by intros []. }
  destruct n as [|n].
  { simpl. split; [lia|]. split; [done|]. split; [done|]. lia. }
  change (replicate (S n) (Mutation p))
    with (Mutation p :: replicate n (Mutation p)).
  rewrite detector_run_cons. simpl.
  rewrite bool_decide_eq_true_2 by done.
  assert (href (location p) = lastHref (hrefObserver p st)) as Hknown.
  { unfold hrefObserver. by rewrite bool_decide_eq_true_2. }
  assert (sessionMarked (hrefObserver p st) = ∅) as Hempty.
  { unfold hrefObserver. by rewrite bool_decide_eq_true_2. }
  destruct (mutations_same_address p n _ Hknown) as [-> ->]. simpl.
  split; [lia|]. split; [done|]. split; [by intros ?|]. by intros _ _.
Qed.

Lemma no_identifier_step (ev : event) (st : State) :
  no_identifier (page_of ev) →
  Forall (λ m, Msg.type m = Some "get_video"
               ∧ (Msg.videoId m = None ∨ Msg.videoId m = Some ""))
    (step ev st).2.
Proof.
  intros Hno.
  destruct (step_cases ev st)
    as [(-> & _)|[([p [->| ->]] & _)
        |(vid & p & <- & Hvid & Hne & _)]].
  - constructor.
  - simpl in *. unfold timeout. destruct (timers st); [constructor|]. simpl.
    unfold insertButtonIfMissing.
    destruct (menu p), (button p); simpl; try constructor; [|constructor].
    split; [done|]. exact Hno.
  - simpl in *. unfold onClick.
    destruct Hno as [-> | ->]; constructor.
  - exfalso. destruct Hno as [Hno|Hno]; rewrite Hno in Hvid; by simplify_eq.
Qed.

(** X19: on pages whose address has no [v] parameter, or an empty one,
    nothing is recorded: whatever the player signals, no [record_watch] is
    sent; the only messages are the [get_video] requests of a newly placed
    button, and one with a [null] identifier is never answered by the store,
    which it leaves as it was. *)
Theorem no_identifier_nothing_recorded (evs : list event) (st : State) :
  Forall (λ ev, no_identifier (page_of ev)) evs →
  (∀ vid, recorded vid (run evs st).2 = 0%nat)
  ∧ Forall (λ m, Msg.type m = Some "get_video"
                 ∧ (Msg.videoId m = None ∨ Msg.videoId m = Some "")
                 ∧ ∀ e db, (ServiceWorker.onMessage e (Some m) db).2 = db
                           ∧ (Msg.videoId m = None →
                              (ServiceWorker.onMessage e (Some m) db).1
                              = ServiceWorker.NoResponse))
      (run evs st).2.
Proof.
  intros Hno.
  assert (Forall (λ m, Msg.type m = Some "get_video"
                       ∧ (Msg.videoId m = None ∨ Msg.videoId m = Some ""))
            (run evs st).2) as Hmsgs.
  { revert st. induction Hno as [|ev evs Hev Hevs IH]; intros st; [constructor|].
    rewrite detector_run_cons. simpl. apply Forall_app.
    split; [by apply no_identifier_step|apply IH]. }
  split.
  - intros vid. unfold recorded.
    induction Hmsgs as [|m out [Hty _] Hout IH]; [done|]. simpl.
    unfold is_record_watch at 1. rewrite bool_decide_eq_false_2; [done|].
    rewrite Hty. by intros [[=] _].
  - eapply Forall_impl; [exact Hmsgs|]. intros [ty vid meta] [Hty Hvid].
    simpl in *. subst ty. split; [done|]. split; [done|]. intros e db.
    unfold ServiceWorker.onMessage, ServiceWorker.handle,
      ServiceWorker.getVideo, ServiceWorker.openDb, mbind, mret,
      ServiceWorker.Async_bind, ServiceWorker.Async_ret, ServiceWorker.bind,
      ServiceWorker.ret, ServiceWorker.throw. simpl.
    destruct (ServiceWorker.open_rejects (ServiceWorker.first e)); simpl;
      [by split|].
    destruct vid as [k|]; simpl; [|by split].
    destruct (ServiceWorker.request_errors (ServiceWorker.first e)); simpl;
      (split; [done|discriminate]).
Qed.

Lemma no_identifier_nothing_recorded_witness :
  let home :=
    {| location := {| href := "https://www.youtube.com/"; v := None |};
       title := "YouTube"; menu := true; button := false;
       video := Some 1%nat |} in
  let evs := [Timeout home; TimeUpdate 1 home (at_position 90 100);
              Ended 1 home; Click home] in
  (∀ vid, recorded vid (run evs (init home)).2 = 0%nat)
  ∧ Forall (λ m, Msg.type m = Some "get_video"
                 ∧ (Msg.videoId m = None ∨ Msg.videoId m = Some "")
                 ∧ ∀ e db, (ServiceWorker.onMessage e (Some m) db).2 = db
                           ∧ (Msg.videoId m = None →
                              (ServiceWorker.onMessage e (Some m) db).1
                              = ServiceWorker.NoResponse))
      (run evs (init home)).2.
Proof.
  intros home evs.
  apply (no_identifier_nothing_recorded evs (init home)).
  repeat (constructor; [left; reflexivity|]). constructor.
Defined.

(** The button of the witness is placed and its request is sent. *)
Example home_page_sends_one_request :
  (run [Timeout {| location := {| href := "https://www.youtube.com/";
                                  v := None |};
                   title := "YouTube"; menu := true; button := false;
                   video := Some 1%nat |}]
     (init (watch_page "abc123"))).2
  = [get_video_msg None].
Proof. reflexivity. Qed.

End DetectorRuns.

(** * The two scripts together *)

Section EndToEnd.
Import ServiceWorker Store Trace.

Lemma filter_snd_length {A B} (f : B → bool) (l : list (A * B)) :
  length (List.filter (λ i, f i.2) l) = length (List.filter f l.*2).
Proof.
  induction l as [|[a b] l IH]; [done|]. simpl.
  destruct (f b); simpl; by rewrite IH.
Qed.

Lemma filter_Some_length (id : string) (out : list Msg.t) :
  length (List.filter (asks_record id) (Some <$> out))
  = ContentScript.recorded id out.
Proof.
  unfold ContentScript.recorded.
  induction out as [|m out IH]; [done|].
  rewrite fmap_cons. cbn [List.filter].
  change (asks_record id (Some m)) with (ContentScript.is_record_watch id m).
  destruct (ContentScript.is_record_watch id m); cbn [length]; by rewrite IH.
Qed.

(** A message adds at most one to the count of an identifier, and only when
    it asks to record a watch of it. *)
Lemma count_bound_step (id : string) (e : Env) (msg : option Msg.t) (db : DB) :
  keyed db →
  (∀ k r, db !! k = Some r → 0 ≤ watchCount r) →
  from_option watchCount 0 ((onMessage e msg db).2 !! id)
  ≤ from_option watchCount 0 (db !! id)
    + (if asks_record id msg then 1 else 0)
  ∧ ∀ k r, (onMessage e msg db).2 !! k = Some r → 0 ≤ watchCount r.
Proof.
  intros Hk Hpos.
  assert (0 ≤ from_option watchCount 0 (db !! id)) as Hid.
  { destruct (db !! id) as [r|] eqn:Hr; simpl; [by eapply Hpos|done]. }
  destruct (onMessage_cases e msg db) as [(id' & meta & ->)|[-> _]].
  2: { split; [|done]. destruct (asks_record id msg); lia. }
  fold (recordWatch e id' meta db).
  destruct (recordWatch_keyed e id' meta db Hk) as [->|[t ->]]; simpl.
  { split; [|done]. case_bool_decide; lia. }
  assert (0 ≤ watchCount (default (fresh id') (read (first e) id' db))
          ∧ watchCount (default (fresh id') (read (first e) id' db))
            ≤ from_option watchCount 0 (db !! id')) as [H0 Hle].
  { unfold read. destruct (request_errors (first e)); simpl.
    - split; [done|]. destruct (db !! id') as [r|] eqn:Hr; simpl; [|done].
      by eapply Hpos.
    - destruct (db !! id') as [r|] eqn:Hr; simpl; [|done].
      split; [by eapply Hpos|done]. }
  split.
  - rewrite lookup_insert. destruct (decide (id' = id)) as [->|Hne].
    + rewrite bool_decide_eq_true_2 by done. simpl. rewrite num_or_0. lia.
    + rewrite bool_decide_eq_false_2 by (intros [_ [= ?]]; done). lia.
  - intros k r. rewrite lookup_insert. case_decide; [|by apply Hpos].
    intros [= <-]. simpl. rewrite num_or_0. lia.
Qed.

Lemma count_bound_run (id : string) (inputs : list (Env * option Msg.t))
    (db : DB) :
  keyed db →
  (∀ k r, db !! k = Some r → 0 ≤ watchCount r) →
  from_option watchCount 0 ((run inputs db).2 !! id)
  ≤ from_option watchCount 0 (db !! id) + Z.of_nat (asked id inputs).
Proof.
  revert db. induction inputs as [|[e msg] rest IH]; intros db Hk Hpos.
  - simpl. unfold asked. simpl. lia.
  - rewrite run_cons. simpl.
    destruct (count_bound_step id e msg db Hk Hpos) as [Hstep Hpos'].
    specialize (IH _ (keyed_step e msg db Hk) Hpos').
    unfold asked in *. simpl. destruct (asks_record id msg); simpl; lia.
Qed.

(** X20: a session adds at most one watch to the count of an identifier:
    however the messages the content script sends during one session reach
    the listener, and whatever the storage engine does to each of them, the
    count the store holds for the identifier afterwards is at most one more
    than before. *)
Theorem session_adds_at_most_one (id : string) (evs : list ContentScript.event)
    (st : ContentScript.State) (inputs : list (Env * option Msg.t)) (db : DB) :
  ContentScript.one_session evs st →
  inputs.*2 = Some <$> (ContentScript.run evs st).2 →
  keyed db →
  store_inv db →
  from_option watchCount 0 ((run inputs db).2 !! id)
  ≤ from_option watchCount 0 (db !! id) + 1.
Proof.
  intros Hs Hin Hk Hinv.
  assert (∀ k r, db !! k = Some r → 0 ≤ watchCount r) as Hpos.
  { intros k r Hr. destruct (Hinv k r Hr) as [-> _]. lia. }
  pose proof (count_bound_run id inputs db Hk Hpos) as Hbound.
  destruct (session_marks id evs st Hs) as (Hle & _).
  unfold asked in Hbound.
  rewrite filter_snd_length, Hin, filter_Some_length in Hbound. lia.
Qed.

Lemma session_adds_at_most_one_witness :
  let page := ContentScript.watch_page "abc123" in
  let evs := [ContentScript.Timeout page;
              ContentScript.TimeUpdate 1 page (ContentScript.at_position 71 100);
              ContentScript.Ended 1 page] in
  let inputs :=
    Extension.deliver "2026-01-01T10:00:00.000Z"
      (ContentScript.run evs (ContentScript.init page)).2 in
  from_option watchCount 0 ((run inputs ∅).2 !! "abc123")
  ≤ from_option watchCount 0 ((∅ : DB) !! "abc123") + 1.
Proof.
  intros page evs inputs.
  apply (session_adds_at_most_one "abc123" evs (ContentScript.init page)
           inputs ∅).
  - simpl. repeat split; reflexivity.
  - reflexivity.
  - intros k r Hk. rewrite lookup_empty in Hk. discriminate.
  - intros k r Hk. rewrite lookup_empty in Hk. discriminate.
Defined.

End EndToEnd.
